(** * SecUtility.Threading.ThreadPool: a transition-system model and its properties

    The development embeds [SecUtility/Threading/ThreadPool.hpp] as an
    interleaving semantics.  Every critical section of the source (a block
    executed with [m_Mutex] held) is one atomic transition; the code a worker
    runs outside the lock (invoking the task it has dequeued) is a transition
    of its own, so that two workers can be between "dequeued" and "finished"
    at the same time.  [m_Condition.wait(lock, pred)] is modelled by
    enabledness: the waiting thread can take its step exactly when [pred]
    holds under the lock, which is what the predicate form of [wait]
    guarantees whatever the notifications do.  A task body is a function on
    the world of the callables, applied when the call returns: a body that
    never returns (one that waits for a task still in the queue, say) has no
    counterpart, so what is proved about a step that returns from a body is
    what the step does, never that it will happen.  The constructor can fail
    in [reserve] (a count beyond what [m_Workers] can hold, or no memory for
    that many elements) and in the creation of a thread; the small
    allocations of [Submit] are taken to succeed. *)

From stdpp Require Import base option list gmap strings.
From Stdlib Require Import NArith.

(** ** Exceptions and results of calls *)

Inductive future_errc :=
| promise_already_satisfied
| no_state
| broken_promise.

Inductive exception :=
| runtime_error (what : string)
| system_error
| length_error
| bad_alloc
| future_error (c : future_errc)
| other_exception (tag : nat).

(** The result of a C++ call: it returns a value or it throws. *)
Inductive Raise (A : Type) :=
| Returned (a : A)
| Thrown (e : exception).
Arguments Returned {A} a.
Arguments Thrown {A} e.

(** The operating system decides whether the creation of the [i]-th
    [std::thread] of a constructor call succeeds.  Counts are [size_t] in the
    source; they are only compared and incremented below a bound, so nothing
    wraps around and they are taken in [N]. *)
Definition Env := N → bool.

Definition generous : Env := λ _, true.

(** The allocator decides whether it has storage for [n] elements of
    [m_Workers]. *)
Definition Memory := N → bool.

Definition plentiful : Memory := λ _, true.

Section Model.

(** [World] is whatever the submitted callables read and write (captured
    references, globals); [Val] is a universal domain for [ReturnType]. *)
Context {World Val : Type}.

(** A bound callable ([func] with its [args]): invoked on the current world it
    leaves a new world and either returns or throws.  Being a function, it
    always comes back; see the note at the head of the file. *)
Definition Callable := World → World * Raise Val.

(** What a result handle finally holds: a value or a failure. *)
Definition Outcome := Raise Val.

(** An element of [m_Tasks]: the closure that captures the shared pointer to
    the packaged task and invokes it.  [task_id] is the address of the
    packaged task and of its shared state, [task_body] the callable stored in
    it.  Submit is the only producer of queue elements and always builds an
    engaged [std::function], so the [static_cast<bool>(task)] test of the
    worker is always true and a dequeued element is carried as a [Task]. *)
Record Task := mkTask {
  task_id : nat;
  task_body : Callable;
}.

(** The control state of a worker thread running [WorkerThread]. *)
Inductive thread :=
| Waiting                 (* top of the loop: locking, or blocked in wait *)
| Holding (task : Task)   (* lock released, [task] moved out of the queue *)
| Executing (task : Task) (* inside [task()] *)
| Exited                  (* [return] taken: the thread function is over *)
| Terminated.             (* an exception left the thread function *)

Definition finished (w : thread) : bool :=
  match w with Exited => true | _ => false end.

(** The data members of the class ([m_Mutex] and [m_Condition] are the
    atomicity and the enabledness of the transitions). *)
Record ThreadPool := mkPool {
  m_Workers : list thread;
  m_Tasks : list Task;
  m_Stop : bool;
}.

(** ** Constructor *)

(** How a call of the constructor ends.  [StdTerminate started] is the
    abnormal end of the unwinding described at [unwind]: the exception does
    not reach the caller and the workers [started] are still running. *)
Inductive Construction :=
| Constructed (p : ThreadPool)
| Propagated (e : exception)            (* the exception reaches the caller *)
| StdTerminate (started : list thread). (* unwinding does not get through *)

(** The loop [for (i = 0; i < threadCount; ++i) m_Workers.emplace_back(...)],
    with [n] iterations left. *)
Fixpoint spawn (env : Env) (n : nat) (i : N) (ws : list thread)
  : list thread * option exception :=
  match n with
  | O => (ws, None)
  | S n' =>
      if env i then spawn env n' (N.succ i) (ws ++ [Waiting])
      else (ws, Some system_error)
  end.

(** An exception leaving the constructor body destroys the members already
    built, in the reverse order of their declaration: [m_Condition],
    [m_Mutex], [m_Tasks], [m_Workers].  The destructor [~ThreadPool] is not
    run for an object whose constructor did not complete, so nothing sets
    [m_Stop] or joins.  With no worker started the members go away quietly
    and the exception reaches the caller.  With workers started it never
    does: a worker that has already blocked in [wait] makes the destruction
    of [m_Condition] undefined (such runs hang there), and if unwinding gets
    as far as [~vector] it runs [~thread] on elements that are all joinable,
    nothing having joined or detached them, which calls [std::terminate].
    Either way the process does not go on with the workers torn down;
    [StdTerminate] stands for both ends. *)
Definition unwind (ws : list thread) (e : exception) : Construction :=
  match ws with
  | [] => Propagated e
  | _ :: _ => StdTerminate ws
  end.

(** The constructor from its loop on, that is once
    [m_Workers.reserve(threadCount)] has returned; [Construct] below puts
    [reserve] in front. *)
Definition construct (env : Env) (numThreads : N) : Construction :=
  let threadCount := N.max numThreads 1 in
  match spawn env (N.to_nat threadCount) 0%N [] with
  | (ws, None) => Constructed {| m_Workers := ws; m_Tasks := []; m_Stop := false |}
  | (ws, Some e) => unwind ws e
  end.

(** [vector<std::thread>::max_size()].  The standard leaves the number to
    the implementation; this is the one of libstdc++ on a 64-bit target,
    [PTRDIFF_MAX / sizeof(std::thread)] with a [std::thread] of 8 bytes. *)
Definition max_size : N := 1152921504606846975.

(** The largest [size_t] of a 64-bit target. *)
Definition SIZE_MAX : N := 18446744073709551615.

(** [m_Workers.reserve(threadCount)] on the empty vector: throws
    [std::length_error] when asked for more than [max_size] elements, before
    it allocates anything, and [std::bad_alloc] when the allocation fails. *)
Definition reserve (mem : Memory) (threadCount : N) : option exception :=
  if (max_size <? threadCount)%N then Some length_error
  else if mem threadCount then None
  else Some bad_alloc.

(** The constructor in full: [reserve], then the loop.  When [reserve] throws,
    [m_Workers] is still empty. *)
Definition Construct (mem : Memory) (env : Env) (numThreads : N) : Construction :=
  let threadCount := N.max numThreads 1 in
  match reserve mem threadCount with
  | Some e => unwind [] e
  | None => construct env numThreads
  end.

Definition ThreadCount (p : ThreadPool) : N := N.of_nat (length (m_Workers p)).

(** ** The running system *)

(** Where the thread that runs [~ThreadPool] is. *)
Inductive Destructor :=
| NotCalled
| Joining (k : nat)   (* [m_Stop] set, the first [k] workers joined *)
| Destroyed.          (* the destructor has returned *)

#[global] Instance Destructor_eq_dec : EqDecision Destructor.
Proof. solve_decision. Defined.

(** The pool with what surrounds it: the shared states of the packaged tasks
    ([None] while no result is stored), the allocator, the world of the
    callables and the thread destroying the pool. *)
Record System := mkSystem {
  pool : ThreadPool;
  shared : gmap nat (option Outcome);
  next_id : nat;
  world : World;
  dtor : Destructor;
}.

Definition init (p : ThreadPool) (w : World) : System :=
  {| pool := p; shared := ∅; next_id := 0; world := w; dtor := NotCalled |}.

Definition set_worker (i : nat) (w : thread) (p : ThreadPool) : ThreadPool :=
  {| m_Workers := <[i := w]> (m_Workers p);
     m_Tasks := m_Tasks p; m_Stop := m_Stop p |}.

Definition with_pool (p : ThreadPool) (s : System) : System :=
  {| pool := p; shared := shared s; next_id := next_id s; world := world s;
     dtor := dtor s |}.

Definition with_dtor (d : Destructor) (s : System) : System :=
  {| pool := pool s; shared := shared s; next_id := next_id s; world := world s;
     dtor := d |}.

(** ** Submit *)

(** The handle returned to the submitter: a [std::future] refers to a shared
    state or to none ([valid()] is false). *)
Record future := mkFuture { fut_state : option nat }.

Definition stopped_message : string := "Cannot submit task to stopped ThreadPool".

(** [make_shared<packaged_task>] and [get_future] allocate the task and its
    shared state at a fresh address; under the lock the task is appended to
    the queue unless [m_Stop] is set, in which case the exception unwinds the
    frame and releases the task that was never published. *)
Definition Submit (f : Callable) (s : System) : Raise future * System :=
  let packagedTask := next_id s in
  let result := {| fut_state := Some packagedTask |} in
  if m_Stop (pool s) then (Thrown (runtime_error stopped_message), s)
  else
    (Returned result,
     {| pool := {| m_Workers := m_Workers (pool s);
                   m_Tasks := m_Tasks (pool s) ++ [mkTask packagedTask f];
                   m_Stop := m_Stop (pool s) |};
        shared := <[packagedTask := None]> (shared s);
        next_id := S packagedTask;
        world := world s; dtor := dtor s |}).

(** ** WorkerThread *)

(** [packaged_task::operator()]: runs the stored callable and stores what it
    returned or threw in the shared state; it throws itself only when the
    shared state is missing or already holds a result. *)
Definition invoke (t : Task) (s : System) : Raise unit * System :=
  match shared s !! task_id t with
  | Some None =>
      let '(w, r) := task_body t (world s) in
      (Returned (),
       {| pool := pool s; shared := <[task_id t := Some r]> (shared s);
          next_id := next_id s; world := w; dtor := dtor s |})
  | Some (Some _) => (Thrown (future_error promise_already_satisfied), s)
  | None => (Thrown (future_error no_state), s)
  end.

Definition empty (q : list Task) : bool :=
  match q with [] => true | _ => false end.

(** What the transitions do; the history of a run is the list of its events
    (no transition reads it). *)
Inductive Event :=
| EvAccept (id : nat)                    (* Submit enqueued task [id] *)
| EvReject                               (* Submit threw *)
| EvDequeue (i id : nat)                 (* worker [i] took [id] off the queue *)
| EvBegin (i id : nat)                   (* worker [i] entered [task()] *)
| EvFinish (i id : nat)                  (* [task()] returned to worker [i] *)
| EvEscape (i id : nat) (e : exception)  (* [task()] threw into worker [i] *)
| EvExit (i : nat)                       (* worker [i] returned *)
| EvStop                                 (* the destructor set [m_Stop] *)
| EvJoin (k : nat)                       (* [join] of worker [k] returned *)
| EvDestroyed.                           (* the destructor returned *)

(** One transition of worker [i]; [None] when it cannot move (blocked in
    [wait], or no longer running). *)
Definition WorkerThread (i : nat) (s : System) : option (Event * System) :=
  let p := pool s in
  match m_Workers p !! i with
  | Some Waiting =>
      if m_Stop p || negb (empty (m_Tasks p)) then
        if m_Stop p && empty (m_Tasks p) then
          Some (EvExit i, with_pool (set_worker i Exited p) s)
        else
          match m_Tasks p with
          | task :: rest =>
              Some (EvDequeue i (task_id task),
                    with_pool {| m_Workers := <[i := Holding task]> (m_Workers p);
                                 m_Tasks := rest; m_Stop := m_Stop p |} s)
          | [] => None
          end
      else None
  | Some (Holding task) =>
      Some (EvBegin i (task_id task), with_pool (set_worker i (Executing task) p) s)
  | Some (Executing task) =>
      match invoke task s with
      | (Returned _, s') =>
          Some (EvFinish i (task_id task), with_pool (set_worker i Waiting p) s')
      | (Thrown e, s') =>
          Some (EvEscape i (task_id task) e, with_pool (set_worker i Terminated p) s')
      end
  | Some Exited | Some Terminated | None => None
  end.

(** ** Destructor *)

(** First transition: the critical section that sets [m_Stop].  Then one
    transition per [worker.join()], enabled once that worker's thread
    function is over; the destructor returns after the last one. *)
Definition destructor (s : System) : option (Event * System) :=
  match dtor s with
  | NotCalled =>
      Some (EvStop,
            {| pool := {| m_Workers := m_Workers (pool s);
                          m_Tasks := m_Tasks (pool s); m_Stop := true |};
               shared := shared s; next_id := next_id s; world := world s;
               dtor := Joining 0 |})
  | Joining k =>
      match m_Workers (pool s) !! k with
      | Some worker =>
          if finished worker then Some (EvJoin k, with_dtor (Joining (S k)) s)
          else None
      | None => Some (EvDestroyed, with_dtor Destroyed s)
      end
  | Destroyed => None
  end.

(** ** Interleavings *)

Inductive Action :=
| ASubmit (f : Callable)   (* some thread calls Submit *)
| AWorker (i : nat)        (* worker [i] moves *)
| ADestructor.             (* the destroying thread moves *)

Definition transition (a : Action) (s : System) : option (Event * System) :=
  match a with
  | ASubmit f =>
      match Submit f s with
      | (Returned _, s') => Some (EvAccept (next_id s), s')
      | (Thrown _, s') => Some (EvReject, s')
      end
  | AWorker i => WorkerThread i s
  | ADestructor => destructor s
  end.

(** Runs a schedule from [s], extending the history [h]; [None] when the
    schedule asks a blocked thread to move. *)
Fixpoint run (sched : list Action) (s : System) (h : list Event)
  : option (System * list Event) :=
  match sched with
  | [] => Some (s, h)
  | a :: sched' =>
      match transition a s with
      | Some (e, s') => run sched' s' (h ++ [e])
      | None => None
      end
  end.

Inductive Reachable (s0 : System) : System → list Event → Prop :=
| reach_init : Reachable s0 s0 []
| reach_step a s h e s' :
    Reachable s0 s h → transition a s = Some (e, s') →
    Reachable s0 s' (h ++ [e]).

(** ** Reading a result handle *)

Inductive Read :=
| Blocked                          (* the caller waits *)
| Got (o : Outcome) (fu : future)  (* [get] returned or rethrew; the handle after *)
| NoState.                         (* [get] on a handle with [valid() == false] *)

(** [future::wait]: returns once the shared state is ready and leaves the
    handle as it is; [None] while the caller is blocked. *)
Definition future_wait (fu : future) (sh : gmap nat (option Outcome)) : option future :=
  match fut_state fu with
  | Some id => match sh !! id with Some (Some _) => Some fu | _ => None end
  | None => None
  end.

(** [future::get]: waits until the shared state is ready, takes the value out
    of it or rethrows the stored exception, and releases the shared state:
    afterwards [valid()] is false.  On a handle that is not valid the
    standard gives [get] no defined behaviour (the usual implementations throw
    [future_error(no_state)]); it yields no outcome either way. *)
Definition future_get (fu : future) (sh : gmap nat (option Outcome)) : Read :=
  match fut_state fu with
  | Some id =>
      match sh !! id with
      | Some (Some o) => Got o {| fut_state := None |}
      | _ => Blocked
      end
  | None => NoState
  end.

(** ** Projections of a history and of the worker set *)

Definition accepted (h : list Event) : list nat :=
  omap (λ e, match e with EvAccept id => Some id | _ => None end) h.

Definition dequeued (h : list Event) : list nat :=
  omap (λ e, match e with EvDequeue _ id => Some id | _ => None end) h.

Definition begun (h : list Event) : list nat :=
  omap (λ e, match e with EvBegin _ id => Some id | _ => None end) h.

Definition completed (h : list Event) : list nat :=
  omap (λ e, match e with EvFinish _ id => Some id | _ => None end) h.

Definition holding (ws : list thread) : list nat :=
  omap (λ w, match w with Holding t => Some (task_id t) | _ => None end) ws.

Definition executing (ws : list thread) : list nat :=
  omap (λ w, match w with Executing t => Some (task_id t) | _ => None end) ws.

(** The number of task bodies that have been entered and not yet left. *)
Definition in_flight (h : list Event) : nat :=
  length (begun h) - length (completed h).

Definition is_escape (e : Event) : bool :=
  match e with EvEscape _ _ _ => true | _ => false end.

(** No exception has left a task call. *)
Definition no_escape (h : list Event) : Prop :=
  Forall (λ e, is_escape e = false) h.

(** The number of steps a worker in state [w] needs to empty the queue [q] on
    its own and return, once [m_Stop] is set: three per task (dequeue, call,
    return of the call) and one to leave the loop. *)
Definition cost (w : thread) (q : list Task) : nat :=
  match w with
  | Waiting => 3 * length q + 1
  | Holding _ => 3 * length q + 3
  | Executing _ => 3 * length q + 2
  | Exited | Terminated => 0
  end.

(** How many times [id] occurs in a list of task identities. *)
Definition times (id : nat) (l : list nat) : nat :=
  length (filter (λ x, x = id) l).

(** What the destroying thread has established about the workers. *)
Definition joined (d : Destructor) (ws : list thread) : Prop :=
  match d with
  | NotCalled => True
  | Joining k => ∀ j, j < k → ws !! j = Some Exited
  | Destroyed => Forall (λ w, w = Exited) ws
  end.

(** What every reachable state satisfies; [h] is the history that led to
    the state. *)
Record Inv (s : System) (h : list Event) : Prop := mkInv {
  inv_queue : accepted h = dequeued h ++ (task_id <$> m_Tasks (pool s));
  inv_held : dequeued h ≡ₚ begun h ++ holding (m_Workers (pool s));
  inv_exec : begun h ≡ₚ completed h ++ executing (m_Workers (pool s));
  inv_fresh : ∀ id, id ∈ accepted h → id < next_id s;
  inv_nodup : NoDup (accepted h);
  inv_done : ∀ id, id ∈ completed h → ∃ o, shared s !! id = Some (Some o);
  inv_pending : ∀ id, id ∈ accepted h → id ∉ completed h → shared s !! id = Some None;
  inv_stop : m_Stop (pool s) = true ↔ dtor s ≠ NotCalled;
  inv_exit : Exited ∈ m_Workers (pool s) →
             m_Stop (pool s) = true ∧ m_Tasks (pool s) = [];
  inv_join : joined (dtor s) (m_Workers (pool s));
  inv_alive : Terminated ∉ m_Workers (pool s);
}.

(** ** MasterThreadPool *)

(** A pool on the heap.  [owned] tells whether some [unique_ptr] (or scope)
    still owns it: only an owner ever runs its destructor. *)
Record Object := mkObject {
  obj : ThreadPool;
  owned : bool;
}.

(** The process as the accessor sees it: the heap of pools and the
    function-local static [instance] ([None] until its initialiser has
    completed). *)
Record Process := mkProcess {
  heap : gmap nat Object;
  instance : option nat;
}.

Definition boot : Process := {| heap := ∅; instance := None |}.

(** A call returns or throws in a new process state, or it never comes back
    (the constructor ended as [StdTerminate]). *)
Inductive Call :=
| Done (r : Raise nat) (π : Process)
| Abort.

(** [std::make_unique<ThreadPool>(numThreads)] as the accessor uses it.  The
    count it passes is [std::thread::hardware_concurrency()], an
    [unsigned int], for which [reserve] asks for a few elements and returns;
    the constructor is therefore taken from its loop on. *)
Definition make_unique (env : Env) (numThreads : N) (π : Process) : Call :=
  match construct env numThreads with
  | Constructed p =>
      let ptr := fresh (dom (heap π)) in
      Done (Returned ptr)
           {| heap := <[ptr := {| obj := p; owned := true |}]> (heap π);
              instance := instance π |}
  | Propagated e => Done (Thrown e) π
  | StdTerminate _ => Abort
  end.

(** [ptr.release()]: the pointer gives up the object without destroying it. *)
Definition release (ptr : nat) (π : Process) : Process :=
  {| heap := alter (λ o, {| obj := obj o; owned := false |}) ptr (heap π);
     instance := instance π |}.

(** The initialiser of the static runs on the first call that finds it
    uninitialised (and again on a later call if it threw); afterwards every
    call only reads [instance]. *)
Definition MasterThreadPool (env : Env) (hardware_concurrency : N) (π : Process) : Call :=
  match instance π with
  | Some raw => Done (Returned raw) π
  | None =>
      match make_unique env hardware_concurrency π with
      | Done (Returned ptr) π' =>
          let raw := ptr in
          Done (Returned raw)
               {| heap := heap (release ptr π'); instance := Some raw |}
      | Done (Thrown e) π' => Done (Thrown e) π'
      | Abort => Abort
      end
  end.

(** The pool the static points to is on the heap and nobody owns it. *)
Definition instance_alive (π : Process) : Prop :=
  ∀ a, instance π = Some a → ∃ o, heap π !! a = Some o ∧ owned o = false.

(** What else happens in the process: other owners build, use and destroy
    pools of their own, and the pools (the shared one included) change as
    their threads run. *)
Inductive PAction :=
| PMaster (env : Env) (hardware_concurrency : N)
| PNew (env : Env) (numThreads : N)
| PUse (a : nat) (p : ThreadPool)
| PDelete (a : nat).

Definition pstep (act : PAction) (π : Process) : option Process :=
  match act with
  | PMaster env n =>
      match MasterThreadPool env n π with Done _ π' => Some π' | Abort => None end
  | PNew env n =>
      match make_unique env n π with Done _ π' => Some π' | Abort => None end
  | PUse a p =>
      match heap π !! a with
      | Some o => Some {| heap := <[a := {| obj := p; owned := owned o |}]> (heap π);
                          instance := instance π |}
      | None => None
      end
  | PDelete a =>
      match heap π !! a with
      | Some o =>
          if owned o
          then Some {| heap := delete a (heap π); instance := instance π |}
          else None
      | None => None
      end
  end.

Inductive PReachable (π0 : Process) : Process → Prop :=
| preach_init : PReachable π0 π0
| preach_step act π π' :
    PReachable π0 π → pstep act π = Some π' → PReachable π0 π'.

(** ** The orders the statements speak about *)

(** Tasks enter their bodies in the order in which they were submitted. *)
Definition begins_in_submission_order (h : list Event) : Prop :=
  begun h `sublist_of` accepted h.

(** Tasks leave the queue in the order in which they were submitted. *)
Definition dequeues_in_submission_order (h : list Event) : Prop :=
  dequeued h `prefix_of` accepted h.

(** A second read of a handle, made on what the first read left of it, sees
    the outcome the first one saw. *)
Definition reads_are_idempotent (fu : future) (sh : gmap nat (option Outcome)) : Prop :=
  ∀ o fu', future_get fu sh = Got o fu' → ∃ fu'', future_get fu' sh = Got o fu''.

End Model.

(** ** Sample callables and pools *)

(** The world of the samples is a log the callables append to. *)
Definition Log := list nat.

Definition say (n : nat) : @Callable Log nat := λ w, (w ++ [n], Returned n).

Definition throws (n : nat) : @Callable Log nat :=
  λ w, (w, Thrown (other_exception n)).

Definition workers (n : nat) : @ThreadPool Log nat :=
  {| m_Workers := replicate n Waiting; m_Tasks := []; m_Stop := false |}.

(** Thread creation succeeds [n] times and fails afterwards. *)
Definition exhausted_after (n : N) : Env := λ i, (i <? n)%N.

(** The state and the history a schedule leads to from a fresh pool of [n]
    workers (the fresh pool itself if the schedule cannot be run). *)
Definition after (n : nat) (sched : list (@Action Log nat))
  : @System Log nat * list Event :=
  default (init (workers n) [], []) (run sched (init (workers n) []) []).

(** A task that throws and a task that returns 42, each run by one of two
    workers, then destruction. *)
Definition full_run : list (@Action Log nat) :=
  [ASubmit (throws 7); ASubmit (say 42);
   AWorker 0; AWorker 1; AWorker 1; AWorker 0; AWorker 1; AWorker 0;
   ADestructor; AWorker 0; AWorker 1; ADestructor; ADestructor; ADestructor].

(** Five tasks queued on a single worker, run only once destruction has
    begun. *)
Definition pending_at_destruction : list (@Action Log nat) :=
  (ASubmit ∘ say <$> [1; 2; 3; 4; 5]) ++ [ADestructor]
  ++ replicate 16 (AWorker 0) ++ [ADestructor; ADestructor].

(** Two submissions; worker 0 takes the first task, worker 1 takes the second
    and calls it before worker 0 calls the first. *)
Definition overtaking : list (@Action Log nat) :=
  [ASubmit (say 1); ASubmit (say 2);
   AWorker 0; AWorker 1; AWorker 1; AWorker 0].

(** One task that returns 42, run to completion by the only worker. *)
Definition answered : list (@Action Log nat) :=
  [ASubmit (say 42); AWorker 0; AWorker 0; AWorker 0].

(** One task that throws, taken and entered by the only worker. *)
Definition failing : list (@Action Log nat) :=
  [ASubmit (throws 7); AWorker 0; AWorker 0].

(** ** What a state holds and what a schedule asks for *)

Section Observations.
Context {World Val : Type}.

(** The tasks the workers hold outside the queue, worker by worker. *)
Definition held (ws : list (@thread World Val)) : list Task :=
  omap (λ w, match w with
             | Holding t | Executing t => Some t
             | _ => None
             end) ws.

(** Every task that has been accepted and has not completed: those the
    workers hold, then the queue. *)
Definition pending (s : @System World Val) : list Task :=
  held (m_Workers (pool s)) ++ m_Tasks (pool s).

(** The callables a schedule submits before it starts the destructor. *)
Fixpoint submissions (sched : list (@Action World Val)) : list Callable :=
  match sched with
  | [] => []
  | ASubmit f :: sched' => f :: submissions sched'
  | AWorker _ :: sched' => submissions sched'
  | ADestructor :: _ => []
  end.

(** The world after calling the callables one after the other. *)
Definition sequential (fs : list (@Callable World Val)) (w0 : World) : World :=
  fold_left (λ w f, (f w).1) fs w0.

(** What the [k]-th of the callables returns or throws when they are called
    one after the other. *)
Definition sequential_outcome (fs : list (@Callable World Val)) (w0 : World)
    (k : nat) : option Outcome :=
  (λ f, (f (sequential (take k fs) w0)).2) <$> fs !! k.

(** A pool of one worker that has accepted the callables [fs], in this
    order, and completed the first [d] of them. *)
Definition sequential_state (w0 : World) (fs : list (@Callable World Val))
    (d : nat) (s : System) : Prop :=
  next_id s = length fs ∧
  d ≤ length fs ∧
  pending s = imap (λ k f, mkTask (d + k) f) (drop d fs) ∧
  world s = sequential (take d fs) w0 ∧
  (∀ k, k < d → shared s !! k = Some (sequential_outcome fs w0 k)) ∧
  (∀ k, d ≤ k < length fs → shared s !! k = Some None).







(** Submits the callables, then lets worker 0, worker 1, ... each take a task
    and enter it. *)
Definition saturate (fs : list (@Callable World Val)) : list Action :=
  (ASubmit <$> fs) ++ flat_map (λ i, [AWorker i; AWorker i]) (seq 0 (length fs)).

(** The worker is inside a task. *)
Definition is_executing (w : @thread World Val) : Prop := ∃ t, w = Executing t.

Definition is_submit (a : @Action World Val) : bool :=
  match a with ASubmit _ => true | _ => false end.

End Observations.


(** * Properties *)

Section Invariants.
Context {World Val : Type}.
Implicit Types (s : @System World Val) (p : @ThreadPool World Val)
  (ws : list (@thread World Val)) (w : @thread World Val) (h : list Event)
  (t : @Task World Val).

Lemma omap_insert_perm {A B} (f : A → option B) (l : list A) i x :
  l !! i = Some x →
  ∃ r, omap f l ≡ₚ option_list (f x) ++ r ∧
       ∀ y, omap f (<[i:=y]> l) ≡ₚ option_list (f y) ++ r.
Proof.
  intros Hi. exists (omap f (take i l) ++ omap f (drop (S i) l)). split.
  - rewrite <- (take_drop_middle l i x Hi) at 1.
    rewrite omap_app. simpl. destruct (f x); simpl; [|done].
    by rewrite Permutation_middle.
  - intros y. rewrite insert_take_drop by (by eapply lookup_lt_Some).
    rewrite omap_app. simpl. destruct (f y); simpl; [|done].
    by rewrite Permutation_middle.
Qed.

Lemma elem_of_insert_inv {A} (l : list A) i x y :
  x ∈ <[i:=y]> l → x = y ∨ x ∈ l.
Proof.
  intros Hx. apply list_elem_of_lookup in Hx as [j Hj].
  destruct (decide (i = j)) as [->|Hne].
  - destruct (decide (j < length l)).
    + rewrite list_lookup_insert_eq in Hj by done. left. congruence.
    + rewrite list_insert_ge in Hj by lia. right. eapply list_elem_of_lookup_2; eauto.
  - rewrite list_lookup_insert_ne in Hj by done. right. eapply list_elem_of_lookup_2; eauto.
Qed.

Lemma joined_insert d ws i w w' :
  ws !! i = Some w → w ≠ Exited ∨ w' = Exited →
  joined d ws → joined d (<[i:=w']> ws).
Proof.
  intros Hi Hw. destruct d as [|k|]; simpl; [done| |].
  - intros Hj j Hlt. destruct (decide (i = j)) as [->|Hne].
    + destruct Hw as [Hw| ->].
      * specialize (Hj j Hlt). congruence.
      * apply list_lookup_insert_eq. by eapply lookup_lt_Some.
    + rewrite list_lookup_insert_ne by done. auto.
  - intros Hall. destruct Hw as [Hw| ->].
    + rewrite Forall_lookup in Hall. by specialize (Hall i w Hi).
    + by apply Forall_insert.
Qed.

Lemma alive_insert ws i w' :
  w' ≠ Terminated → Terminated ∉ ws → Terminated ∉ <[i:=w']> ws.
Proof. intros Hw Ht [Hx|Hx]%elem_of_insert_inv; [congruence | done]. Qed.

Lemma exit_insert ws i w' :
  w' ≠ Exited → Exited ∈ <[i:=w']> ws → Exited ∈ ws.
Proof. intros Hw [Hx|Hx]%elem_of_insert_inv; [congruence | done]. Qed.

Lemma accepted_snoc h e :
  accepted (h ++ [e]) = accepted h ++ match e with EvAccept id => [id] | _ => [] end.
Proof. unfold accepted. rewrite omap_app. by destruct e. Qed.
Lemma dequeued_snoc h e :
  dequeued (h ++ [e]) = dequeued h ++ match e with EvDequeue _ id => [id] | _ => [] end.
Proof. unfold dequeued. rewrite omap_app. by destruct e. Qed.
Lemma begun_snoc h e :
  begun (h ++ [e]) = begun h ++ match e with EvBegin _ id => [id] | _ => [] end.
Proof. unfold begun. rewrite omap_app. by destruct e. Qed.
Lemma completed_snoc h e :
  completed (h ++ [e]) = completed h ++ match e with EvFinish _ id => [id] | _ => [] end.
Proof. unfold completed. rewrite omap_app. by destruct e. Qed.

Lemma Inv_completed_accepted s h id : Inv s h → id ∈ completed h → id ∈ accepted h.
Proof.
  intros I Hc. rewrite (inv_queue _ _ I). apply elem_of_app. left.
  rewrite (inv_held _ _ I). apply elem_of_app. left.
  rewrite (inv_exec _ _ I). apply elem_of_app. by left.
Qed.

Lemma Inv_executing_pending s h id :
  Inv s h → id ∈ executing (m_Workers (pool s)) → shared s !! id = Some None.
Proof.
  intros I He.
  assert (NoDup (completed h ++ executing (m_Workers (pool s)))) as Hnd.
  { rewrite <- (inv_exec _ _ I).
    pose proof (inv_nodup _ _ I) as Hn. rewrite (inv_queue _ _ I) in Hn.
    apply NoDup_app in Hn as [Hn _]. rewrite (inv_held _ _ I) in Hn.
    by apply NoDup_app in Hn as [Hn _]. }
  apply NoDup_app in Hnd as (_ & Hdisj & _).
  apply (inv_pending _ _ I).
  - rewrite (inv_queue _ _ I). apply elem_of_app. left.
    rewrite (inv_held _ _ I). apply elem_of_app. left.
    rewrite (inv_exec _ _ I). apply elem_of_app. by right.
  - intros Hc. by apply (Hdisj id).
Qed.

Lemma Inv_init p (w0 : World) :
  m_Tasks p = [] → m_Stop p = false →
  Forall (λ w, w = Waiting) (m_Workers p) → Inv (init p w0) [].
Proof.
  intros Hq Hs Hw.
  assert (holding (m_Workers p) = []) as Hh.
  { unfold holding. induction Hw as [|x l -> _ IH]; simpl; auto. }
  assert (executing (m_Workers p) = []) as He.
  { unfold executing. induction Hw as [|x l -> _ IH]; simpl; auto. }
  assert (∀ x, x ∈ m_Workers p → x = Waiting) as Hall by (by apply Forall_forall).
  split; simpl; rewrite ?Hq, ?Hs, ?Hh, ?He; simpl; try done.
  - intros x Hx. by apply elem_of_nil in Hx.
  - constructor.
  - intros x Hx. by apply elem_of_nil in Hx.
  - intros Hx. apply Hall in Hx. done.
  - intros Hx. apply Hall in Hx. done.
Qed.


Lemma Inv_step a s h e s' :
  Inv s h → transition a s = Some (e, s') → Inv s' (h ++ [e]).
Proof.
  intros I Ht. destruct a as [f|i|]; simpl in Ht.
  - (* Submit *)
    unfold Submit in Ht. destruct (m_Stop (pool s)) eqn:Hstop.
    + inversion Ht; subst. destruct I.
      split; rewrite ?accepted_snoc, ?dequeued_snoc, ?begun_snoc, ?completed_snoc,
        ?app_nil_r; auto.
    + inversion Ht; subst; clear Ht. 
      split; rewrite ?accepted_snoc, ?dequeued_snoc, ?begun_snoc, ?completed_snoc,
        ?app_nil_r; simpl.
      * rewrite fmap_app, app_assoc. simpl. by rewrite (inv_queue _ _ I).
      * apply I.
      * apply I.
      * intros id [Hid| ->%list_elem_of_singleton]%elem_of_app; [|lia].
        apply (inv_fresh _ _ I) in Hid. lia.
      * apply NoDup_app. split; [apply I|]. split; [|apply NoDup_singleton].
        intros x Hx ->%list_elem_of_singleton. apply (inv_fresh _ _ I) in Hx. lia.
      * intros id Hid. 
        assert (id ≠ next_id s).
        { apply (Inv_completed_accepted _ _ _ I), (inv_fresh _ _ I) in Hid. lia. }
        rewrite lookup_insert_ne by done. by apply (inv_done _ _ I).
      * intros id [Hid| ->%list_elem_of_singleton]%elem_of_app Hc.
        -- assert (id ≠ next_id s) by (apply (inv_fresh _ _ I) in Hid; lia).
           rewrite lookup_insert_ne by done. by apply (inv_pending _ _ I).
        -- by rewrite lookup_insert_eq.
      * pose proof (inv_stop _ _ I) as Hs. by rewrite Hstop in Hs.
      * intros Hx. apply (inv_exit _ _ I) in Hx as [Hx _]. congruence.
      * apply I.
      * apply I.
  - (* WorkerThread *)
    unfold WorkerThread in Ht.
    destruct (m_Workers (pool s) !! i) as [w|] eqn:Hi; [|done].
    destruct (omap_insert_perm
      (λ w, match w with Holding t => Some (task_id t) | _ => None end)
      (m_Workers (pool s)) i w Hi) as (rh & Hh & Hh').
    destruct (omap_insert_perm
      (λ w, match w with Executing t => Some (task_id t) | _ => None end)
      (m_Workers (pool s)) i w Hi) as (re & He & He').
    fold (holding (m_Workers (pool s))) in Hh.
    fold (executing (m_Workers (pool s))) in He.
    pose proof I as [Iq Ih Ie If In Id Ip Is Ix Ij Ia].
    destruct w as [|t|t| |]; simpl in Hh, He; [| | |done|done].
    + (* at the top of the loop *)
      destruct (m_Stop (pool s)) eqn:Hstop, (m_Tasks (pool s)) as [|t rest] eqn:Hq;
        simpl in Ht; [| | done |].
      * inversion Ht; subst; clear Ht. 
        split; rewrite ?accepted_snoc, ?dequeued_snoc, ?begun_snoc, ?completed_snoc,
          ?app_nil_r; simpl; rewrite ?Hq, ?Hstop; try done.
        -- unfold holding. by rewrite Hh', Ih, Hh.
        -- unfold executing. by rewrite He', Ie, He.
        -- eapply joined_insert; eauto.
        -- by apply alive_insert.
      * inversion Ht; subst; clear Ht. 
        split; rewrite ?accepted_snoc, ?dequeued_snoc, ?begun_snoc, ?completed_snoc,
          ?app_nil_r; simpl; rewrite ?Hstop; try done.
        -- rewrite Iq. simpl. by rewrite <- app_assoc.
        -- unfold holding. rewrite Hh', Ih, Hh. simpl. solve_Permutation.
        -- unfold executing. by rewrite He', Ie, He.
        -- intros Hx%exit_insert; [|done]. by destruct (Ix Hx).
        -- eapply (joined_insert _ _ _ _ _ Hi); eauto.
        -- by apply alive_insert.
      * inversion Ht; subst; clear Ht. 
        split; rewrite ?accepted_snoc, ?dequeued_snoc, ?begun_snoc, ?completed_snoc,
          ?app_nil_r; simpl; rewrite ?Hstop; try done.
        -- rewrite Iq. simpl. by rewrite <- app_assoc.
        -- unfold holding. rewrite Hh', Ih, Hh. simpl. solve_Permutation.
        -- unfold executing. by rewrite He', Ie, He.
        -- intros Hx%exit_insert; [|done]. by destruct (Ix Hx).
        -- eapply (joined_insert _ _ _ _ _ Hi); eauto.
        -- by apply alive_insert.
    + (* about to call the task *)
      inversion Ht; subst; clear Ht. 
      split; rewrite ?accepted_snoc, ?dequeued_snoc, ?begun_snoc, ?completed_snoc,
          ?app_nil_r; simpl; try done.
      * unfold holding. rewrite Hh', Ih, Hh. simpl. solve_Permutation.
      * unfold executing. rewrite He', Ie, He. simpl. solve_Permutation.
      * intros Hx%exit_insert; [|done]. auto.
      * eapply (joined_insert _ _ _ _ _ Hi); eauto.
      * by apply alive_insert.
    + (* inside the task *)
      assert (shared s !! task_id t = Some None) as Hp.
      { apply (Inv_executing_pending _ _ _ I). unfold executing.
        apply list_elem_of_omap. exists (Executing t). split; [|done].
        by eapply list_elem_of_lookup_2. }
      unfold invoke in Ht. rewrite Hp in Ht.
      destruct (task_body t (world s)) as [w' r].
      inversion Ht; subst; clear Ht.
      split; rewrite ?accepted_snoc, ?dequeued_snoc, ?begun_snoc, ?completed_snoc,
          ?app_nil_r; simpl; try done.
      * unfold holding. by rewrite Hh', Ih, Hh.
      * unfold executing. rewrite He', Ie, He. simpl. solve_Permutation.
      * intros id [Hid| ->%list_elem_of_singleton]%elem_of_app.
        -- destruct (decide (task_id t = id)) as [->|Hne].
           ++ rewrite lookup_insert_eq. eauto.
           ++ rewrite lookup_insert_ne by done. auto.
        -- rewrite lookup_insert_eq. eauto.
      * intros id Hid [Hc Hne]%not_elem_of_app.
        rewrite list_elem_of_singleton in Hne.
        rewrite lookup_insert_ne by done. auto.
      * intros Hx%exit_insert; [|done]. auto.
      * eapply (joined_insert _ _ _ _ _ Hi); eauto.
      * by apply alive_insert.
  - (* destructor *)
    pose proof I as [Iq Ih Ie If In Id Ip Is Ix Ij Ia].
    unfold destructor in Ht. destruct (dtor s) as [|k|] eqn:Hd; [| |done].
    + inversion Ht; subst; clear Ht.
      split; rewrite ?accepted_snoc, ?dequeued_snoc, ?begun_snoc, ?completed_snoc,
          ?app_nil_r; simpl; try done.
      * intros Hx. destruct (Ix Hx). done.
      * intros j Hj. lia.
    + destruct (m_Workers (pool s) !! k) as [w|] eqn:Hk.
      * destruct w; simpl in Ht; try done. inversion Ht; subst; clear Ht.
        split; rewrite ?accepted_snoc, ?dequeued_snoc, ?begun_snoc, ?completed_snoc,
          ?app_nil_r; simpl; try done.
        -- split; [done|]. intros _. by apply Is.
        -- intros j Hj. destruct (decide (j = k)) as [->|Hne]; [done|].
           apply Ij. lia.
      * inversion Ht; subst; clear Ht.
        split; rewrite ?accepted_snoc, ?dequeued_snoc, ?begun_snoc, ?completed_snoc,
          ?app_nil_r; simpl; try done.
        -- split; [done|]. intros _. by apply Is.
        -- apply Forall_lookup. intros j x Hj.
           apply lookup_ge_None_1 in Hk. pose proof (lookup_lt_Some _ _ _ Hj).
           rewrite Ij in Hj by lia. congruence.
Qed.
(** ** The constructor *)

Lemma spawn_ok env n i ws :
  (∀ j, (i ≤ j < i + N.of_nat n)%N → env j = true) →
  spawn env n i ws = (ws ++ replicate n Waiting, None).
Proof.
  revert i ws. induction n as [|n IH]; intros i ws Henv; simpl.
  - by rewrite app_nil_r.
  - rewrite Henv by lia. rewrite IH by (intros j Hj; apply Henv; lia).
    by rewrite <- app_assoc.
Qed.

Lemma spawn_None env n i ws ws' :
  spawn env n i ws = (ws', None) → ws' = ws ++ replicate n Waiting.
Proof.
  revert i ws. induction n as [|n IH]; intros i ws; simpl.
  - intros [= <-]. by rewrite app_nil_r.
  - destruct (env i); [|done]. intros ->%IH. by rewrite <- app_assoc.
Qed.

Lemma spawn_Some env n i ws ws' e :
  spawn env n i ws = (ws', Some e) →
  ∃ k, k < n ∧ ws' = ws ++ replicate k Waiting ∧ e = system_error ∧
       env (i + N.of_nat k)%N = false.
Proof.
  revert i ws. induction n as [|n IH]; intros i ws; simpl; [done|].
  destruct (env i) eqn:Hi.
  - intros (k & Hk & -> & -> & He)%IH. exists (S k).
    split; [lia|]. split; [by rewrite <- app_assoc|]. split; [done|].
    by replace (i + N.of_nat (S k))%N with (N.succ i + N.of_nat k)%N by lia.
  - intros [= <- <-]. exists 0. split; [lia|]. rewrite app_nil_r.
    split; [done|]. split; [done|]. by rewrite N.add_0_r.
Qed.

Lemma construct_Constructed env numThreads p :
  construct env numThreads = Constructed p →
  p = {| m_Workers := replicate (N.to_nat (N.max numThreads 1)) Waiting;
         m_Tasks := []; m_Stop := false |}.
Proof.
  unfold construct.
  destruct (spawn env _ 0%N []) as [ws [e|]] eqn:Hs.
  - unfold unwind. by destruct ws.
  - apply spawn_None in Hs as ->. by intros [= <-].
Qed.

Lemma reserve_None mem threadCount :
  reserve mem threadCount = None ↔
  (threadCount ≤ max_size)%N ∧ mem threadCount = true.
Proof.
  unfold reserve. destruct (N.ltb_spec max_size threadCount) as [Hlt|Hle].
  - split; [done|]. intros [? _]. lia.
  - destruct (mem threadCount); [done|]. split; [done|]. by intros [_ ?].
Qed.

Lemma reserve_Some mem threadCount e :
  reserve mem threadCount = Some e →
  e = length_error ∧ (max_size < threadCount)%N ∨
  e = bad_alloc ∧ (threadCount ≤ max_size)%N ∧ mem threadCount = false.
Proof.
  unfold reserve. destruct (N.ltb_spec max_size threadCount) as [Hlt|Hle].
  - intros [= <-]. by left.
  - destruct (mem threadCount) eqn:Hm; [done|]. intros [= <-]. by right.
Qed.

(** A pool the constructor has built went through [reserve] and then through
    the loop: what is proved of the pools [construct] gives holds of every
    pool there is. *)
Lemma Construct_Constructed mem env numThreads p :
  Construct (World:=World) (Val:=Val) mem env numThreads = Constructed p ↔
  (N.max numThreads 1 ≤ max_size)%N ∧ mem (N.max numThreads 1) = true ∧
  construct env numThreads = Constructed p.
Proof.
  unfold Construct.
  destruct (reserve mem (N.max numThreads 1)) as [e|] eqn:Hr.
  - split; [done|]. intros (Hle & Hm & _).
    assert (reserve mem (N.max numThreads 1) = None) as Hn
      by by apply reserve_None.
    congruence.
  - apply reserve_None in Hr as [Hle Hm]. split; [done|]. by intros (_ & _ & ?).
Qed.

(** ** Reachable states *)

Lemma Reachable_Inv env numThreads p (w0 : World) s h :
  construct env numThreads = Constructed p →
  Reachable (init p w0) s h → Inv s h.
Proof.
  intros ->%construct_Constructed Hr. induction Hr as [|a s h e s' _ IH Ht].
  - apply Inv_init; simpl; try done. apply Forall_replicate. done.
  - by eapply Inv_step.
Qed.

Lemma transition_workers a s e s' :
  transition a s = Some (e, s') →
  length (m_Workers (pool s')) = length (m_Workers (pool s)).
Proof.
  destruct a as [f|i|]; simpl.
  - unfold Submit. destruct (m_Stop (pool s)); by intros [= <- <-].
  - unfold WorkerThread, invoke.
    repeat (case_match; simplify_eq/=; try done);
      intros; simplify_eq/=; by rewrite ?length_insert.
  - unfold destructor. repeat (case_match; simplify_eq/=; try done);
      intros; by simplify_eq/=.
Qed.

Lemma Reachable_workers s0 s h :
  Reachable s0 s h → length (m_Workers (pool s)) = length (m_Workers (pool s0)).
Proof.
  induction 1 as [|a s h e s' _ IH Ht]; [done|].
  by rewrite (transition_workers _ _ _ _ Ht).
Qed.

Lemma run_Reachable s0 sched s h s' h' :
  Reachable s0 s h → run sched s h = Some (s', h') → Reachable s0 s' h'.
Proof.
  revert s h. induction sched as [|a sched IH]; intros s h Hr; simpl.
  - by intros [= <- <-].
  - destruct (transition a s) as [[e s1]|] eqn:Ht; [|done].
    apply IH. by eapply reach_step.
Qed.

Lemma length_omap_le {A B} (f : A → option B) (l : list A) :
  length (omap f l) ≤ length l.
Proof. induction l as [|x l IH]; csimpl; [done|]. destruct (f x); csimpl; lia. Qed.

(** ** Construction and the worker count *)

(** When the creation of every thread succeeds the loop of the constructor
    leaves [max numThreads 1] waiting workers, and no step of the pool changes
    their number. *)
Lemma construct_workers env numThreads :
  (∀ i, (i < N.max numThreads 1)%N → env i = true) →
  ∃ p : @ThreadPool World Val,
    construct env numThreads = Constructed p ∧
    m_Workers p = replicate (N.to_nat (N.max numThreads 1)) Waiting ∧
    ThreadCount p = N.max numThreads 1 ∧
    (numThreads = 0%N → ThreadCount p = 1%N) ∧
    ∀ (w0 : World) s h,
      Reachable (init p w0) s h → ThreadCount (pool s) = N.max numThreads 1.
Proof.
  intros Henv.
  assert (construct (World:=World) (Val:=Val) env numThreads = Constructed
    {| m_Workers := replicate (N.to_nat (N.max numThreads 1)) Waiting;
       m_Tasks := []; m_Stop := false |}) as Hc.
  { unfold construct. rewrite spawn_ok; [done|].
    intros j Hj. apply Henv. lia. }
  eexists. split; [exact Hc|]. simpl.
  assert (ThreadCount (World:=World) (Val:=Val)
            {| m_Workers := replicate (N.to_nat (N.max numThreads 1)) Waiting;
               m_Tasks := []; m_Stop := false |} = N.max numThreads 1) as Hn.
  { unfold ThreadCount. simpl. rewrite length_replicate. lia. }
  split; [done|]. split; [done|]. split; [intros ->; by rewrite Hn|].
  intros w0 s h Hr. unfold ThreadCount.
  rewrite (Reachable_workers _ _ _ Hr). simpl. rewrite length_replicate. lia.
Qed.

(** C6: for every requested thread count [numThreads] whose [max numThreads 1]
    the vector of workers can hold, when its storage can be allocated and the
    creation of every thread succeeds, the constructor builds
    [max numThreads 1] waiting workers at once, [ThreadCount] returns
    [max numThreads 1] on the new pool and in every state the pool reaches
    afterwards, and a request for 0 threads gives a pool of 1 worker instead
    of an error. *)
Theorem ThreadCount_is_max mem env numThreads :
  (N.max numThreads 1 ≤ max_size)%N →
  mem (N.max numThreads 1) = true →
  (∀ i, (i < N.max numThreads 1)%N → env i = true) →
  ∃ p : @ThreadPool World Val,
    Construct mem env numThreads = Constructed p ∧
    m_Workers p = replicate (N.to_nat (N.max numThreads 1)) Waiting ∧
    m_Tasks p = [] ∧ m_Stop p = false ∧
    ThreadCount p = N.max numThreads 1 ∧
    (numThreads = 0%N → ThreadCount p = 1%N) ∧
    ∀ (w0 : World) s h,
      Reachable (init p w0) s h → ThreadCount (pool s) = N.max numThreads 1.
Proof.
  intros Hle Hm Henv.
  destruct (construct_workers env numThreads Henv)
    as (p & Hc & Hws & Hn & H0 & Hfix).
  exists p. split; [by apply Construct_Constructed|].
  apply construct_Constructed in Hc as Hp.
  split; [done|]. split; [by rewrite Hp|]. split; [by rewrite Hp|done].
Qed.

(** C7: in every reachable state of every pool the number of task bodies
    entered and not yet left is the number of workers that are inside a task,
    one per worker at most, so it never exceeds [ThreadCount], and
    [ThreadCount] is what it was at construction. *)
Theorem in_flight_bounded env numThreads p (w0 : World) s h :
  construct env numThreads = Constructed p →
  Reachable (init p w0) s h →
  in_flight h = length (executing (m_Workers (pool s))) ∧
  (N.of_nat (in_flight h) ≤ ThreadCount (pool s))%N ∧
  ThreadCount (pool s) = ThreadCount p.
Proof.
  intros Hc Hr. pose proof (Reachable_Inv _ _ _ _ _ _ Hc Hr) as I.
  assert (in_flight h = length (executing (m_Workers (pool s)))) as Hn.
  { unfold in_flight. rewrite (inv_exec _ _ I), length_app. lia. }
  split; [done|]. unfold ThreadCount. split.
  - rewrite Hn. pose proof (length_omap_le
      (λ w, match w with Executing t => Some (task_id t) | _ => None end)
      (m_Workers (pool s))) as Hle. unfold executing. lia.
  - by rewrite (Reachable_workers _ _ _ Hr).
Qed.

(** ** Submit after shutdown *)

(** C2: once the destructor has set the stop flag, every call of Submit
    throws the runtime error to its caller and leaves everything as it was:
    the task is not enqueued and no result handle is returned. *)
Theorem Submit_after_shutdown_throws env numThreads p (w0 : World) s h f :
  construct env numThreads = Constructed p →
  Reachable (init p w0) s h →
  dtor s ≠ NotCalled →
  Submit f s = (Thrown (runtime_error stopped_message), s).
Proof.
  intros Hc Hr Hd. pose proof (Reachable_Inv _ _ _ _ _ _ Hc Hr) as I.
  apply (inv_stop _ _ I) in Hd. unfold Submit. by rewrite Hd.
Qed.

(** C10: a call of Submit that throws leaves the queue, the stop flag and the
    worker set as they were, together with the shared states and the world:
    the state after the call is the state before it, so the rejected
    callable is stored nowhere and every later run is the run that would
    have happened without the call. *)
Theorem rejected_Submit_changes_nothing f s e s' :
  Submit f s = (Thrown e, s') →
  e = runtime_error stopped_message ∧
  m_Tasks (pool s') = m_Tasks (pool s) ∧
  m_Stop (pool s') = m_Stop (pool s) ∧
  m_Workers (pool s') = m_Workers (pool s) ∧
  world s' = world s ∧
  shared s' = shared s ∧
  transition (ASubmit f) s = Some (EvReject, s) ∧
  ∀ sched h, run sched s' h = run sched s h.
Proof.
  unfold Submit. intros Hs. simpl. unfold Submit.
  destruct (m_Stop (pool s)) eqn:Hstop; [|done].
  by simplify_eq.
Qed.

(** ** Failures of task bodies *)

Lemma Inv_Executing s h i t :
  Inv s h → m_Workers (pool s) !! i = Some (Executing t) →
  shared s !! task_id t = Some None.
Proof.
  intros I Hi. apply (Inv_executing_pending _ _ _ I). unfold executing.
  apply list_elem_of_omap. exists (Executing t). split; [|done].
  by eapply list_elem_of_lookup_2.
Qed.

(** What the step of a worker that is inside a task does. *)
Lemma Inv_finish s h i t :
  Inv s h → m_Workers (pool s) !! i = Some (Executing t) →
  transition (AWorker i) s =
    Some (EvFinish i (task_id t),
          {| pool := set_worker i Waiting (pool s);
             shared := <[task_id t := Some (task_body t (world s)).2]> (shared s);
             next_id := next_id s;
             world := (task_body t (world s)).1;
             dtor := dtor s |}).
Proof.
  intros I Hi. simpl. unfold WorkerThread, invoke.
  rewrite Hi, (Inv_Executing _ _ _ _ I Hi).
  by destruct (task_body t (world s)).
Qed.

Lemma Inv_no_escape s h a e s' :
  Inv s h → transition a s = Some (e, s') → is_escape e = false.
Proof.
  intros I Ht. destruct a as [f|i|]; simpl in Ht.
  - unfold Submit in Ht. destruct (m_Stop (pool s)); by simplify_eq.
  - destruct (m_Workers (pool s) !! i) as [w|] eqn:Hi;
      [|unfold WorkerThread in Ht; by rewrite Hi in Ht].
    destruct w as [|t|t| |].
    + unfold WorkerThread in Ht. rewrite Hi in Ht.
      repeat (case_match; simplify_eq/=; try done).
    + unfold WorkerThread in Ht. rewrite Hi in Ht. by simplify_eq.
    + pose proof (Inv_finish _ _ _ _ I Hi) as Hf. simpl in Hf.
      rewrite Hf in Ht. by simplify_eq.
    + unfold WorkerThread in Ht. by rewrite Hi in Ht.
    + unfold WorkerThread in Ht. by rewrite Hi in Ht.
  - unfold destructor in Ht. repeat (case_match; simplify_eq/=; try done).
Qed.

Lemma Reachable_no_escape env numThreads p (w0 : World) s h :
  construct env numThreads = Constructed p →
  Reachable (init p w0) s h → no_escape h.
Proof.
  intros Hc Hr. unfold no_escape. induction Hr as [|a s h e s' Hr IH Ht]; [constructor|].
  apply Forall_app. split; [done|]. constructor; [|constructor].
  eapply Inv_no_escape; [|done]. by eapply Reachable_Inv.
Qed.

(** C4: when the body of the task a worker is executing throws, the worker's
    step stores the exception as the outcome of that task's own shared
    state, leaves the shared state of every other task, the queue and the
    other workers as they were, and puts the worker back at the top of its
    loop; no exception has left a task call and no worker is terminated,
    before or after. *)
Theorem task_failure_is_contained env numThreads p (w0 : World) s h i task
    (wd : World) e :
  construct env numThreads = Constructed p →
  Reachable (init p w0) s h →
  m_Workers (pool s) !! i = Some (Executing task) →
  task_body task (world s) = (wd, Thrown e) →
  no_escape h ∧
  (Terminated ∉ m_Workers (pool s)) ∧
  ∃ s', transition (AWorker i) s = Some (EvFinish i (task_id task), s') ∧
        shared s' !! task_id task = Some (Some (Thrown e)) ∧
        (∀ id, id ≠ task_id task → shared s' !! id = shared s !! id) ∧
        m_Workers (pool s') = <[i := Waiting]> (m_Workers (pool s)) ∧
        m_Tasks (pool s') = m_Tasks (pool s) ∧
        m_Stop (pool s') = m_Stop (pool s) ∧
        (Terminated ∉ m_Workers (pool s')).
Proof.
  intros Hc Hr Hi Hb. pose proof (Reachable_Inv _ _ _ _ _ _ Hc Hr) as I.
  split; [by eapply Reachable_no_escape|]. split; [apply I|].
  pose proof (Inv_finish _ _ _ _ I Hi) as Hf. rewrite Hb in Hf. simpl in Hf.
  eexists. split; [exact Hf|]. simpl.
  split; [by rewrite lookup_insert_eq|].
  split; [intros id Hne; by rewrite lookup_insert_ne|].
  repeat (split; [done|]).
  apply alive_insert; [done|apply I].
Qed.

Lemma accepted_run sched s h s' h' id :
  run sched s h = Some (s', h') → id ∈ accepted h → id ∈ accepted h'.
Proof.
  revert s h. induction sched as [|a sched IH]; intros s h; simpl.
  - by intros [= <- <-].
  - destruct (transition a s) as [[e s1]|]; [|done].
    intros Hrun Hid. eapply IH; [done|].
    rewrite accepted_snoc. apply elem_of_app. by left.
Qed.

(** ** The destructor can return

    What follows is about the transition system only: it rests on every call
    of a task body coming back, which the type of callables builds in and
    the program does not promise. *)

Lemma run_app sched1 sched2 s h :
  run (sched1 ++ sched2) s h =
  run sched1 s h ≫= λ sh, run sched2 sh.1 sh.2.
Proof.
  revert s h. induction sched1 as [|a sched1 IH]; intros s h; simpl; [done|].
  destruct (transition a s) as [[e s1]|]; [apply IH|done].
Qed.

(** A worker left alone after [m_Stop] was set empties the queue and
    returns. *)
Lemma worker_drains n s h i w :
  Inv s h → m_Stop (pool s) = true →
  m_Workers (pool s) !! i = Some w →
  cost w (m_Tasks (pool s)) = n →
  ∃ s' h', run (replicate n (AWorker i)) s h = Some (s', h') ∧
           Inv s' h' ∧
           m_Workers (pool s') = <[i := Exited]> (m_Workers (pool s)) ∧
           m_Stop (pool s') = true ∧ dtor s' = dtor s.
Proof.
  revert s h w. induction n as [|n IH]; intros s h w I Hstop Hi Hcost.
  - exists s, h. simpl. split; [done|]. split; [done|].
    assert (w = Exited) as ->.
    { destruct w; simpl in Hcost; try lia; [done|].
      exfalso. apply (inv_alive _ _ I). by eapply list_elem_of_lookup_2. }
    by rewrite list_insert_id.
  - assert (∃ e s1 w1, transition (AWorker i) s = Some (e, s1) ∧
              m_Workers (pool s1) = <[i := w1]> (m_Workers (pool s)) ∧
              cost w1 (m_Tasks (pool s1)) = n ∧
              m_Stop (pool s1) = true ∧ dtor s1 = dtor s) as
      (e & s1 & w1 & Ht & Hws & Hc1 & Hstop1 & Hd1).
    { destruct w as [|t|t| |]; simpl in Hcost; try lia.
      - simpl. unfold WorkerThread. rewrite Hi, Hstop. simpl.
        destruct (m_Tasks (pool s)) as [|t rest] eqn:Hq; simpl in *.
        + eexists _, _, Exited. split; [done|]. simpl. repeat split; try done. lia.
        + eexists _, _, (Holding t). split; [done|]. simpl.
          repeat split; try done. lia.
      - simpl. unfold WorkerThread. rewrite Hi.
        eexists _, _, (Executing t). split; [done|]. simpl.
        repeat split; try done. lia.
      - eexists _, _, Waiting. split; [by apply (Inv_finish _ h)|]. simpl.
        repeat split; try done. lia. }
    pose proof (Inv_step _ _ _ _ _ I Ht) as I1.
    destruct (IH s1 (h ++ [e]) w1 I1 Hstop1) as (s' & h' & Hrun & I' & Hws' & Hstop' & Hd'); [|done|].
    { rewrite Hws. apply list_lookup_insert_eq. by eapply lookup_lt_Some. }
    exists s', h'. cbn [replicate run]. rewrite Ht. split; [done|]. split; [done|].
    split; [by rewrite Hws', Hws, list_insert_insert_eq|].
    split; [done|]. congruence.
Qed.

Lemma workers_drain k s h :
  Inv s h → m_Stop (pool s) = true → k ≤ length (m_Workers (pool s)) →
  ∃ sched s' h', run sched s h = Some (s', h') ∧ Inv s' h' ∧
                 (∀ j, j < k → m_Workers (pool s') !! j = Some Exited) ∧
                 length (m_Workers (pool s')) = length (m_Workers (pool s)) ∧
                 m_Stop (pool s') = true ∧ dtor s' = dtor s.
Proof.
  intros I Hstop. induction k as [|k IH]; intros Hk.
  - exists [], s, h. simpl. split; [done|]. split; [done|].
    split; [intros j Hj; lia|done].
  - destruct IH as (sched & s1 & h1 & Hrun & I1 & Hex & Hlen & Hstop1 & Hd1); [lia|].
    destruct (lookup_lt_is_Some_2 (m_Workers (pool s1)) k) as [w Hw]; [lia|].
    destruct (worker_drains _ s1 h1 k w I1 Hstop1 Hw eq_refl)
      as (s' & h' & Hrun' & I' & Hws' & Hstop' & Hd').
    exists (sched ++ replicate (cost w (m_Tasks (pool s1))) (AWorker k)), s', h'.
    rewrite run_app, Hrun. simpl. split; [done|]. split; [done|].
    split; [|split; [by rewrite Hws', length_insert|split; [done|congruence]]].
    intros j Hj. rewrite Hws'. destruct (decide (j = k)) as [->|Hne].
    + apply list_lookup_insert_eq. lia.
    + rewrite list_lookup_insert_ne by done. apply Hex. lia.
Qed.

Lemma joins_return n s h k :
  dtor s = Joining k →
  Forall (λ w, w = Exited) (m_Workers (pool s)) →
  length (m_Workers (pool s)) - k = n →
  ∃ s' h', run (replicate (S n) ADestructor) s h = Some (s', h') ∧
           dtor s' = Destroyed.
Proof.
  revert s h k. induction n as [|n IH]; intros s h k Hd Hall Hn.
  - assert (m_Workers (pool s) !! k = None) as Hk
      by (apply lookup_ge_None_2; lia).
    exists (with_dtor Destroyed s), (h ++ [EvDestroyed]).
    simpl. unfold destructor. by rewrite Hd, Hk.
  - destruct (lookup_lt_is_Some_2 (m_Workers (pool s)) k) as [w Hw]; [lia|].
    pose proof Hall as Hall'. rewrite Forall_lookup in Hall'.
    rewrite (Hall' _ _ Hw) in Hw.
    destruct (IH (with_dtor (Joining (S k)) s) (h ++ [EvJoin k]) (S k))
      as (s' & h' & Hrun & Hd'); [done|done|simpl; lia|].
    exists s', h'. split; [|done].
    change (replicate (S (S n)) ADestructor)
      with (ADestructor :: replicate (S n) (@ADestructor World Val)).
    cbn [run transition]. unfold destructor at 1. rewrite Hd, Hw. simpl finished.
    cbv iota. exact Hrun.
Qed.

(** From every reachable state some schedule lets the destructor return. *)
Lemma destructor_can_return env numThreads p (w0 : World) s h :
  construct env numThreads = Constructed p →
  Reachable (init p w0) s h →
  ∃ sched s' h', run sched s h = Some (s', h') ∧ dtor s' = Destroyed.
Proof.
  intros Hc Hr. pose proof (Reachable_Inv _ _ _ _ _ _ Hc Hr) as I.
  assert (∀ s h k, Inv s h → dtor s = Joining k →
            ∃ sched s' h', run sched s h = Some (s', h') ∧ dtor s' = Destroyed)
    as Hjoining.
  { clear. intros s h k I Hd.
    assert (m_Stop (pool s) = true) as Hstop by (apply (inv_stop _ _ I); by rewrite Hd).
    destruct (workers_drain (length (m_Workers (pool s))) s h I Hstop)
      as (sched & s1 & h1 & Hrun & I1 & Hex & Hlen & Hstop1 & Hd1); [done|].
    rewrite Hd in Hd1.
    destruct (joins_return (length (m_Workers (pool s1)) - k) s1 h1 k Hd1)
      as (s' & h' & Hrun' & Hd'); [|done|].
    { apply Forall_lookup. intros j x Hx.
      pose proof (lookup_lt_Some _ _ _ Hx). rewrite Hex in Hx by lia. congruence. }
    eexists (sched ++ _), s', h'. rewrite run_app, Hrun. simpl. by split. }
  destruct (dtor s) as [|k|] eqn:Hd.
  - destruct (destructor s) as [[e s1]|] eqn:Ht;
      [|unfold destructor in Ht; by rewrite Hd in Ht].
    assert (transition ADestructor s = Some (e, s1)) as Ht' by done.
    pose proof (Inv_step _ _ _ _ _ I Ht') as I1.
    assert (dtor s1 = Joining 0) as Hd1.
    { unfold destructor in Ht. rewrite Hd in Ht. by simplify_eq. }
    destruct (Hjoining s1 (h ++ [e]) 0 I1 Hd1) as (sched & s' & h' & Hrun & Hd').
    exists (ADestructor :: sched), s', h'. simpl. rewrite Ht. by split.
  - by eapply Hjoining.
  - exists [], s, h. by split.
Qed.

(** ** No task is lost, none runs twice *)

Lemma times_NoDup id (l : list nat) : NoDup l → id ∈ l → times id l = 1.
Proof.
  unfold times. induction 1 as [|x l Hx Hnd IH]; [by intros ?%elem_of_nil|].
  intros [->|Hin]%elem_of_cons.
  - rewrite filter_cons_True by done. simpl. f_equal.
    clear IH Hnd. induction l as [|y l IH]; [done|].
    apply not_elem_of_cons in Hx as [Hne Hx].
    rewrite filter_cons_False by congruence. auto.
  - rewrite filter_cons_False; [auto|]. intros ->. done.
Qed.

Lemma times_le_NoDup id (l : list nat) : NoDup l → times id l ≤ 1.
Proof.
  intros Hnd. destruct (decide (id ∈ l)) as [Hin|Hin].
  - by rewrite times_NoDup.
  - unfold times. replace (filter (λ x, x = id) l) with (@nil nat); [simpl; lia|].
    symmetry. induction l as [|y l IH]; [done|].
    apply not_elem_of_cons in Hin as [Hne Hin]. apply NoDup_cons in Hnd as [_ Hnd].
    rewrite filter_cons_False by congruence. auto.
Qed.

Lemma all_Exited_idle ws :
  Forall (λ w, w = Exited) ws → holding ws = [] ∧ executing ws = [].
Proof.
  unfold holding, executing. induction 1 as [|x l -> _ [IH1 IH2]]; [done|].
  csimpl. by rewrite IH1, IH2.
Qed.

(** Once every worker has returned, and there is at least one, the queue is
    empty and every accepted task has been dequeued, entered and left. *)
Lemma Inv_drained s h :
  Inv s h →
  Forall (λ w, w = Exited) (m_Workers (pool s)) → m_Workers (pool s) ≠ [] →
  m_Tasks (pool s) = [] ∧ dequeued h = accepted h ∧
  begun h ≡ₚ accepted h ∧ completed h ≡ₚ accepted h.
Proof.
  intros I Hall Hne.
  assert (Exited ∈ m_Workers (pool s)) as Hex.
  { destruct (m_Workers (pool s)) as [|x l]; [done|].
    apply Forall_cons in Hall as [-> _]. apply elem_of_cons. by left. }
  destruct (inv_exit _ _ I Hex) as [_ Hq].
  destruct (all_Exited_idle _ Hall) as [Hh He].
  pose proof (inv_queue _ _ I) as Iq. rewrite Hq in Iq. simpl in Iq.
  rewrite app_nil_r in Iq.
  pose proof (inv_held _ _ I) as Ih. rewrite Hh, app_nil_r in Ih.
  pose proof (inv_exec _ _ I) as Ie. rewrite He, app_nil_r in Ie.
  split; [done|]. split; [done|]. rewrite Iq. split; [done|].
  by rewrite <- Ie.
Qed.

Lemma Inv_NoDup s h :
  Inv s h → NoDup (dequeued h) ∧ NoDup (begun h) ∧ NoDup (completed h).
Proof.
  intros I. pose proof (inv_nodup _ _ I) as Hn. rewrite (inv_queue _ _ I) in Hn.
  apply NoDup_app in Hn as [Hd _]. split; [done|].
  rewrite (inv_held _ _ I) in Hd. apply NoDup_app in Hd as [Hb _]. split; [done|].
  rewrite (inv_exec _ _ I) in Hb. by apply NoDup_app in Hb as [Hc _].
Qed.


Lemma Reachable_nonempty env numThreads p (w0 : World) s h :
  construct env numThreads = Constructed p →
  Reachable (init p w0) s h → m_Workers (pool s) ≠ [].
Proof.
  intros ->%construct_Constructed Hr Hnil.
  pose proof (Reachable_workers _ _ _ Hr) as Hlen.
  rewrite Hnil in Hlen. simpl in Hlen. rewrite length_replicate in Hlen. lia.
Qed.





(** ** First in, first out *)

(** With a single worker the tasks also enter their bodies in the order of
    their dequeues. *)
Lemma single_worker_step a s h e s' :
  length (m_Workers (pool s)) = 1 →
  transition a s = Some (e, s') →
  dequeued h = begun h ++ holding (m_Workers (pool s)) →
  dequeued (h ++ [e]) = begun (h ++ [e]) ++ holding (m_Workers (pool s')).
Proof.
  intros Hlen Ht IH. rewrite dequeued_snoc, begun_snoc.
  destruct a as [f|i|]; simpl in Ht.
  - unfold Submit in Ht. destruct (m_Stop (pool s)); simplify_eq/=;
      by rewrite !app_nil_r.
  - destruct (m_Workers (pool s)) as [|w [|??]] eqn:Hws; simplify_eq/=.
    unfold WorkerThread, invoke in Ht. rewrite Hws in Ht.
    destruct i as [|i]; simpl in Ht; [|done].
    unfold holding in *. simpl in IH.
    repeat (case_match; simplify_eq/=; try done);
      rewrite ?Hws; csimpl in *; rewrite ?app_nil_r in *; try done.
    congruence.
  - unfold destructor in Ht.
    repeat (case_match; simplify_eq/=; try done); by rewrite !app_nil_r.
Qed.

Lemma single_worker_order env numThreads p (w0 : World) s h :
  construct env numThreads = Constructed p →
  Reachable (init p w0) s h →
  length (m_Workers p) = 1 →
  dequeued h = begun h ++ holding (m_Workers (pool s)).
Proof.
  intros Hc Hr Hlen. induction Hr as [|a s h e s' Hr IH Ht].
  - apply construct_Constructed in Hc as ->. simpl in *.
    destruct (N.to_nat (N.max numThreads 1)) as [|[|n]]; by simplify_eq/=.
  - eapply single_worker_step; [|done..].
    by rewrite (Reachable_workers _ _ _ Hr).
Qed.

Lemma prefix_is_sublist {A} (l k : list A) : l `prefix_of` k → l `sublist_of` k.
Proof. intros [r ->]. by apply sublist_inserts_r. Qed.

(** C3 (as amended): in every reachable state the tasks dequeued so far,
    in the order of their dequeues, followed by the tasks still queued, are
    the accepted tasks in the order of their submission: Submit appends at
    the tail and a dequeue removes the head, so tasks leave the queue in
    submission order; with a single worker they also enter their bodies in
    that order. *)
Theorem tasks_dequeued_in_submission_order env numThreads p (w0 : World) s h :
  construct env numThreads = Constructed p →
  Reachable (init p w0) s h →
  accepted h = dequeued h ++ (task_id <$> m_Tasks (pool s)) ∧
  dequeues_in_submission_order h ∧
  (∀ f fu s', Submit f s = (Returned fu, s') →
     m_Tasks (pool s') = m_Tasks (pool s) ++ [mkTask (next_id s) f]) ∧
  (∀ i id s', transition (AWorker i) s = Some (EvDequeue i id, s') →
     ∃ task, task_id task = id ∧ m_Tasks (pool s) = task :: m_Tasks (pool s') ∧
             m_Workers (pool s') !! i = Some (Holding task)) ∧
  (ThreadCount p = 1%N → begins_in_submission_order h).
Proof.
  intros Hc Hr. pose proof (Reachable_Inv _ _ _ _ _ _ Hc Hr) as I.
  split; [apply I|]. split.
  { unfold dequeues_in_submission_order. rewrite (inv_queue _ _ I).
    by apply prefix_app_r. }
  split.
  { intros f fu s'. unfold Submit. destruct (m_Stop (pool s)); [done|].
    by intros [= _ <-]. }
  split.
  { intros i id s' Ht. simpl in Ht. unfold WorkerThread, invoke in Ht.
    destruct (m_Workers (pool s) !! i) as [w|] eqn:Hi; [|done].
    repeat (case_match; simplify_eq/=; try done);
      (eexists; split; [done|]; split; [done|];
       apply list_lookup_insert_eq; by eapply lookup_lt_Some). }
  intros Hone. unfold begins_in_submission_order.
  rewrite (inv_queue _ _ I).
  rewrite (single_worker_order _ _ _ _ _ _ Hc Hr) by (unfold ThreadCount in Hone; lia).
  apply prefix_is_sublist. rewrite <- app_assoc. by apply prefix_app_r.
Qed.

(** ** Result handles *)

Lemma Inv_ready_step s h a e s' id o :
  Inv s h → id ∈ accepted h →
  shared s !! id = Some (Some o) →
  transition a s = Some (e, s') →
  shared s' !! id = Some (Some o).
Proof.
  intros I Hid Hready Ht. destruct a as [f|i|]; simpl in Ht.
  - unfold Submit in Ht. destruct (m_Stop (pool s)); simplify_eq/=; [done|].
    apply (inv_fresh _ _ I) in Hid. rewrite lookup_insert_ne by lia. done.
  - destruct (m_Workers (pool s) !! i) as [w|] eqn:Hi;
      [|unfold WorkerThread in Ht; by rewrite Hi in Ht].
    destruct w as [|t|t| |].
    + unfold WorkerThread in Ht. rewrite Hi in Ht.
      repeat (case_match; simplify_eq/=; try done).
    + unfold WorkerThread in Ht. rewrite Hi in Ht. by simplify_eq.
    + pose proof (Inv_finish _ _ _ _ I Hi) as Hf. simpl in Hf.
      rewrite Hf in Ht. simplify_eq/=.
      pose proof (Inv_Executing _ _ _ _ I Hi) as Hp.
      rewrite lookup_insert_ne; [done|]. intros Heq. congruence.
    + unfold WorkerThread in Ht. by rewrite Hi in Ht.
    + unfold WorkerThread in Ht. by rewrite Hi in Ht.
  - unfold destructor in Ht. repeat (case_match; simplify_eq/=; try done).
Qed.

Lemma ready_forever env numThreads p (w0 : World) sched s h s' h' id o :
  construct env numThreads = Constructed p →
  Reachable (init p w0) s h →
  id ∈ accepted h →
  shared s !! id = Some (Some o) →
  run sched s h = Some (s', h') →
  shared s' !! id = Some (Some o).
Proof.
  intros Hc. revert s h. induction sched as [|a sched IH]; intros s h Hr Hid Hready; simpl.
  - by intros [= <- <-].
  - destruct (transition a s) as [[e s1]|] eqn:Ht; [|done].
    apply IH.
    + by eapply reach_step.
    + rewrite accepted_snoc. apply elem_of_app. by left.
    + eapply Inv_ready_step; [|done..]. by eapply Reachable_Inv.
Qed.

(** C5 (as amended): the shared state of every accepted task is written at
    most once, by the step that completes the task, and exactly once by the
    time the destructor has returned; what is written is one outcome, a value
    or a failure, and it never changes afterwards.  Before that the handle's
    [get] and [wait] block.  After it [wait] returns as often as it is
    called, and [get] delivers the outcome and leaves the handle without
    shared state, so that a further [get] through the handle delivers
    nothing. *)
Theorem result_written_once env numThreads p (w0 : World) s h id :
  construct env numThreads = Constructed p →
  Reachable (init p w0) s h →
  id ∈ accepted h →
  let fu := {| fut_state := Some id |} in
  times id (completed h) ≤ 1 ∧
  (dtor s = Destroyed → times id (completed h) = 1) ∧
  (id ∉ completed h →
     shared s !! id = Some None ∧
     future_get fu (shared s) = Blocked ∧
     future_wait fu (shared s) = None) ∧
  (id ∈ completed h →
     ∃ o, shared s !! id = Some (Some o) ∧
          (∀ sched s' h', run sched s h = Some (s', h') →
                          shared s' !! id = Some (Some o)) ∧
          future_wait fu (shared s) = Some fu ∧
          future_get fu (shared s) = Got o {| fut_state := None |} ∧
          future_get {| fut_state := None |} (shared s) = NoState).
Proof.
  intros Hc Hr Hid fu. pose proof (Reachable_Inv _ _ _ _ _ _ Hc Hr) as I.
  destruct (Inv_NoDup _ _ I) as (_ & _ & Hnd).
  split; [by apply times_le_NoDup|]. split.
  { intros Hd. pose proof (inv_join _ _ I) as Hj. rewrite Hd in Hj. simpl in Hj.
    destruct (Inv_drained _ _ I Hj) as (_ & _ & _ & Hcmp);
      [by eapply Reachable_nonempty|].
    apply times_NoDup; [done|]. by rewrite Hcmp. }
  split.
  - intros Hc'. pose proof (inv_pending _ _ I _ Hid Hc') as Hp.
    unfold future_get, future_wait. simpl. by rewrite Hp.
  - intros Hc'. destruct (inv_done _ _ I _ Hc') as [o Ho]. exists o.
    split; [done|]. split.
    { intros sched s' h' Hrun. by eapply ready_forever. }
    unfold future_get, future_wait. simpl. by rewrite Ho.
Qed.

(** ** Failure of thread creation *)

Lemma spawn_fails env i n j ws :
  env i = false → (j ≤ i < j + N.of_nat n)%N →
  (spawn (World:=World) (Val:=Val) env n j ws).2 ≠ None.
Proof.
  intros Hf. revert j ws. induction n as [|n IH]; intros j ws Hj; simpl; [lia|].
  destruct (env j) eqn:Hej; [|done].
  apply IH. destruct (decide (j = i)) as [->|]; [congruence|lia].
Qed.

(** When the creation of some thread fails, the constructor never completes;
    the exception reaches the caller only if the very first creation failed,
    and otherwise the workers already started are all still waiting when
    unwinding comes to destroy the members. *)
Lemma construct_failure env numThreads :
  (∃ i, (i < N.max numThreads 1)%N ∧ env i = false) →
  match construct (World:=World) (Val:=Val) env numThreads with
  | Constructed _ => False
  | Propagated e => e = system_error ∧ env 0%N = false
  | StdTerminate ws => ws ≠ [] ∧ Forall (λ w, w = Waiting) ws
  end.
Proof.
  intros (i & Hi & Hf). unfold construct.
  pose proof (spawn_fails env i (N.to_nat (N.max numThreads 1)) 0%N [] Hf) as Hsp.
  destruct (spawn env _ 0%N []) as [ws [e|]] eqn:Hs.
  - apply spawn_Some in Hs as (k & Hk & -> & -> & He). simpl in *.
    destruct k as [|k]; simpl; [done|].
    split; [done|]. constructor; [done|]. by apply Forall_replicate.
  - simpl in Hsp. apply Hsp; [lia|done].
Qed.

(** C8: with two threads requested and the creation of the second one
    failing, the constructor neither completes nor hands the exception to its
    caller: the first worker, still waiting, is neither stopped nor joined,
    and unwinding ends as [StdTerminate] describes, in the destruction of
    members that a running thread still uses. *)
Theorem partial_construction_terminates :
  construct (World:=World) (Val:=Val) (exhausted_after 1) 2 = StdTerminate [Waiting].
Proof. reflexivity. Qed.

(** ** The shared pool *)

Lemma make_unique_Done env n (π : @Process World Val) r π' :
  make_unique env n π = Done r π' →
  instance π' = instance π ∧
  ((∃ e, r = Thrown e ∧ π' = π) ∨
   (∃ p ptr, r = Returned ptr ∧ construct env n = Constructed p ∧
             heap π !! ptr = None ∧
             heap π' = <[ptr := {| obj := p; owned := true |}]> (heap π))).
Proof.
  unfold make_unique. destruct (construct env n) as [p|e|ws]; [| |done].
  - intros [= <- <-]. split; [done|]. right. exists p, (fresh (dom (heap π))).
    split; [done|]. split; [done|]. split; [|done].
    apply not_elem_of_dom. apply is_fresh.
  - intros [= <- <-]. split; [done|]. left. eauto.
Qed.

Lemma MasterThreadPool_Done env n (π : @Process World Val) a π' :
  instance_alive π →
  MasterThreadPool env n π = Done (Returned a) π' →
  instance π' = Some a ∧ instance_alive π' ∧
  (instance π = Some a ∧ π' = π ∨
   instance π = None ∧ heap π !! a = None ∧
   ∃ p, construct env n = Constructed p ∧
        heap π' !! a = Some {| obj := p; owned := false |}).
Proof.
  intros Halive. unfold MasterThreadPool.
  destruct (instance π) as [raw|] eqn:Hi.
  - intros [= <- <-]. split; [done|]. split; [done|]. by left.
  - destruct (make_unique env n π) as [[ptr|e] π1|] eqn:Hm; [|done..].
    intros [= <- <-]. simpl.
    apply make_unique_Done in Hm as [Hinst [(e & ? & ?)|(p & ptr' & Hr & Hc & Hfresh & Hheap)]];
      [done|]. simplify_eq.
    assert (alter (λ o, {| obj := obj o; owned := false |}) ptr' (heap π1) !! ptr'
            = Some {| obj := p; owned := false |}) as Hl.
    { rewrite Hheap, lookup_alter_eq, lookup_insert_eq. done. }
    split; [done|]. split.
    + intros a [= <-]. simpl. eauto.
    + right. split; [done|]. split; [done|]. eauto.
Qed.

Lemma instance_alive_step act (π π' : @Process World Val) :
  instance_alive π → pstep act π = Some π' →
  instance_alive π' ∧ ∀ a, instance π = Some a → instance π' = Some a.
Proof.
  intros Halive. destruct act as [env n|env n|a p|a]; simpl.
  - destruct (MasterThreadPool env n π) as [[b|e] π1|] eqn:Hm; [| |done].
    + intros [= <-].
      apply MasterThreadPool_Done in Hm as (Hi & Ha & [[? ->]|[Hn _]]); [| |done].
      * done.
      * split; [done|]. intros a. by rewrite Hn.
    + intros [= <-]. unfold MasterThreadPool in Hm.
      destruct (instance π) as [raw|] eqn:Hi; [done|].
      destruct (make_unique env n π) as [[ptr|e'] π2|] eqn:Hmu; [done| |done].
      apply make_unique_Done in Hmu as [_ [(e2 & ? & ?)|(? & ? & ? & _)]]; [|done].
      simplify_eq. split; [done|]. intros a. by rewrite Hi.
  - destruct (make_unique env n π) as [r π1|] eqn:Hm; [|done].
    intros [= <-].
    apply make_unique_Done in Hm as [Hinst [(e & ? & ->)|(p & ptr & _ & _ & Hfresh & Hheap)]].
    + done.
    + split; [|intros a; by rewrite Hinst].
      intros a Ha. rewrite Hinst in Ha. destruct (Halive a Ha) as (o & Ho & Hown).
      exists o. split; [|done]. rewrite Hheap, lookup_insert_ne; [done|].
      intros ->. congruence.
  - destruct (heap π !! a) as [o|] eqn:Ho; [|done]. intros [= <-]. simpl.
    split; [|done]. intros b Hb. simpl in *.
    destruct (Halive b Hb) as (o' & Ho' & Hown).
    destruct (decide (a = b)) as [->|Hne].
    + rewrite lookup_insert_eq. simplify_eq. eauto.
    + rewrite lookup_insert_ne by done. eauto.
  - destruct (heap π !! a) as [o|] eqn:Ho; [|done].
    destruct (owned o) eqn:Hown; [|done]. intros [= <-]. simpl.
    split; [|done]. intros b Hb. simpl in *.
    destruct (Halive b Hb) as (o' & Ho' & Hown').
    exists o'. split; [|done]. rewrite lookup_delete_ne; [done|].
    intros ->. congruence.
Qed.

Lemma PReachable_alive (π0 π : @Process World Val) :
  instance_alive π0 → PReachable π0 π →
  instance_alive π ∧ ∀ a, instance π0 = Some a → instance π = Some a.
Proof.
  intros H0. induction 1 as [|act π π' _ [IH1 IH2] Hs]; [done|].
  destruct (instance_alive_step _ _ _ IH1 Hs) as [H1 H2]. split; [done|].
  intros a Ha. auto.
Qed.

(** C9: once a call of the accessor has returned a pool, every later call,
    whatever the process did in between, returns that same pool without
    building another one, and the pool is still on the heap, owned by nobody
    who could destroy it; nothing is built before the first call, which
    constructs the pool at an address that was free. *)
Theorem MasterThreadPool_one_instance (π1 π2 π3 : @Process World Val)
    env1 n1 env2 n2 a :
  PReachable boot π1 →
  MasterThreadPool env1 n1 π1 = Done (Returned a) π2 →
  PReachable π2 π3 →
  MasterThreadPool env2 n2 π3 = Done (Returned a) π3 ∧
  (∃ o, heap π3 !! a = Some o ∧ owned o = false) ∧
  instance (@boot World Val) = None ∧ heap (@boot World Val) = ∅ ∧
  (instance π1 = None →
   heap π1 !! a = None ∧
   ∃ p, construct env1 n1 = Constructed p ∧
        heap π2 !! a = Some {| obj := p; owned := false |}).
Proof.
  intros Hr1 Hm Hr2.
  assert (instance_alive (@boot World Val)) as Hb by (by intros a').
  destruct (PReachable_alive _ _ Hb Hr1) as [Ha1 _].
  destruct (MasterThreadPool_Done _ _ _ _ _ Ha1 Hm) as (Hi2 & Ha2 & Hcase).
  destruct (PReachable_alive _ _ Ha2 Hr2) as [Ha3 Hi3].
  specialize (Hi3 a Hi2).
  split; [unfold MasterThreadPool; by rewrite Hi3|].
  split; [by apply Ha3|]. split; [done|]. split; [done|].
  intros Hnone. destruct Hcase as [[? _]|(_ & ? & ?)]; [congruence|done].
Qed.


(** * Further properties of the pool *)

(** ** Submit while the pool is alive *)

(** X1: as long as the destructor has not begun, Submit never throws: it
    returns a handle to a shared state that no earlier call returned, leaves
    that state pending, puts the task at the tail of the queue and touches
    neither the workers, the stop flag, the world nor the shared state of any
    other task. *)
Theorem Submit_before_shutdown_accepts env numThreads p (w0 : World) s h f :
  construct env numThreads = Constructed p →
  Reachable (init p w0) s h →
  dtor s = NotCalled →
  ∃ s', Submit f s = (Returned {| fut_state := Some (next_id s) |}, s') ∧
        (next_id s ∉ accepted h) ∧
        future_get {| fut_state := Some (next_id s) |} (shared s') = Blocked ∧
        m_Tasks (pool s') = m_Tasks (pool s) ++ [mkTask (next_id s) f] ∧
        m_Workers (pool s') = m_Workers (pool s) ∧
        m_Stop (pool s') = false ∧
        world s' = world s ∧
        ∀ id, id ≠ next_id s → shared s' !! id = shared s !! id.
Proof.
  intros Hc Hr Hd. pose proof (Reachable_Inv _ _ _ _ _ _ Hc Hr) as I.
  assert (m_Stop (pool s) = false) as Hstop.
  { destruct (m_Stop (pool s)) eqn:Hs; [|done].
    by apply (inv_stop _ _ I) in Hs. }
  unfold Submit. rewrite Hstop. eexists. split; [done|]. simpl.
  split; [intros Hin; apply (inv_fresh _ _ I) in Hin; lia|].
  split; [unfold future_get; simpl; by rewrite lookup_insert_eq|].
  repeat (split; [done|]).
  intros id Hne. by rewrite lookup_insert_ne.
Qed.

(** ** The life of a worker *)

(** X2: a worker thread returns only after the destructor has set the stop
    flag and only when the queue is empty.  So while the pool is alive no
    worker has returned, and a waiting worker with an empty queue is blocked:
    it neither leaves its loop nor takes a step. *)
Theorem workers_return_only_at_shutdown env numThreads p (w0 : World) s h :
  construct env numThreads = Constructed p →
  Reachable (init p w0) s h →
  (Exited ∈ m_Workers (pool s) → dtor s ≠ NotCalled ∧ m_Tasks (pool s) = []) ∧
  (dtor s = NotCalled → m_Tasks (pool s) = [] →
   ∀ i, m_Workers (pool s) !! i = Some Waiting → transition (AWorker i) s = None) ∧
  (∀ i e s', transition (AWorker i) s = Some (e, s') →
             m_Workers (pool s') !! i = Some Exited →
             e = EvExit i ∧ m_Stop (pool s) = true ∧ m_Tasks (pool s) = [] ∧
             m_Workers (pool s) !! i = Some Waiting).
Proof.
  intros Hc Hr. pose proof (Reachable_Inv _ _ _ _ _ _ Hc Hr) as I.
  split; [|split].
  - intros Hex. destruct (inv_exit _ _ I Hex) as [Hstop Hq].
    split; [by apply (inv_stop _ _ I)|done].
  - intros Hd Hq i Hi. simpl. unfold WorkerThread. rewrite Hi, Hq.
    destruct (m_Stop (pool s)) eqn:Hs; [|done].
    by apply (inv_stop _ _ I) in Hs.
  - intros i e s' Ht Hi'. simpl in Ht.
    destruct (m_Workers (pool s) !! i) as [w|] eqn:Hi;
      [|unfold WorkerThread in Ht; by rewrite Hi in Ht].
    pose proof (lookup_lt_Some _ _ _ Hi) as Hlt.
    destruct w as [|t|t| |].
    + unfold WorkerThread in Ht. rewrite Hi in Ht.
      destruct (m_Stop (pool s)), (m_Tasks (pool s)) as [|t rest];
        simplify_eq/=; try done;
        rewrite list_lookup_insert_eq in Hi' by done; done.
    + unfold WorkerThread in Ht. rewrite Hi in Ht. simplify_eq/=.
      rewrite list_lookup_insert_eq in Hi' by done. done.
    + pose proof (Inv_finish _ _ _ _ I Hi) as Hf. simpl in Hf.
      rewrite Hf in Ht. simplify_eq/=.
      rewrite list_lookup_insert_eq in Hi' by done. done.
    + unfold WorkerThread in Ht. by rewrite Hi in Ht.
    + unfold WorkerThread in Ht. by rewrite Hi in Ht.
Qed.

(** X3: a queued task always finds the workers alive.  While the queue is not
    empty the pool has a worker and none of its workers has returned or
    died; a waiting worker is not blocked, and its step takes the task at the
    head of the queue; a worker that holds a task can enter it.  (Whether a
    worker that is inside a body comes back is up to the body.) *)
Theorem queued_task_can_be_taken env numThreads p (w0 : World) s h :
  construct env numThreads = Constructed p →
  Reachable (init p w0) s h →
  m_Tasks (pool s) ≠ [] →
  m_Workers (pool s) ≠ [] ∧
  (∀ i w, m_Workers (pool s) !! i = Some w → w ≠ Exited ∧ w ≠ Terminated) ∧
  (∀ i, m_Workers (pool s) !! i = Some Waiting →
        ∃ task rest s', m_Tasks (pool s) = task :: rest ∧
          transition (AWorker i) s = Some (EvDequeue i (task_id task), s') ∧
          m_Tasks (pool s') = rest ∧
          m_Workers (pool s') = <[i := Holding task]> (m_Workers (pool s))) ∧
  (∀ i task, m_Workers (pool s) !! i = Some (Holding task) →
        ∃ s', transition (AWorker i) s = Some (EvBegin i (task_id task), s') ∧
              m_Tasks (pool s') = m_Tasks (pool s) ∧
              m_Workers (pool s') = <[i := Executing task]> (m_Workers (pool s))).
Proof.
  intros Hc Hr Hq. pose proof (Reachable_Inv _ _ _ _ _ _ Hc Hr) as I.
  split; [by eapply Reachable_nonempty|]. split; [|split].
  - intros i w Hw. split; intros ->.
    + apply Hq. apply (inv_exit _ _ I). by eapply list_elem_of_lookup_2.
    + apply (inv_alive _ _ I). by eapply list_elem_of_lookup_2.
  - intros i Hi. simpl. unfold WorkerThread. rewrite Hi.
    destruct (m_Tasks (pool s)) as [|t rest]; [done|].
    exists t, rest. destruct (m_Stop (pool s)); simpl; eauto.
  - intros i task Hi. simpl. unfold WorkerThread. rewrite Hi. eauto.
Qed.

(** ** After the destructor *)

Lemma Destroyed_step env numThreads p (w0 : World) s h a e s' :
  construct env numThreads = Constructed p →
  Reachable (init p w0) s h →
  dtor s = Destroyed →
  transition a s = Some (e, s') →
  is_submit a = true ∧ e = EvReject ∧ s' = s.
Proof.
  intros Hc Hr Hd Ht. pose proof (Reachable_Inv _ _ _ _ _ _ Hc Hr) as I.
  assert (m_Stop (pool s) = true) as Hstop.
  { apply (inv_stop _ _ I). by rewrite Hd. }
  pose proof (inv_join _ _ I) as Hj. rewrite Hd in Hj. simpl in Hj.
  destruct a as [f|i|]; simpl in Ht.
  - unfold Submit in Ht. rewrite Hstop in Ht. by simplify_eq.
  - unfold WorkerThread in Ht.
    destruct (m_Workers (pool s) !! i) as [w|] eqn:Hi; [|done].
    rewrite Forall_lookup in Hj. by rewrite (Hj _ _ Hi) in Ht.
  - unfold destructor in Ht. by rewrite Hd in Ht.
Qed.

(** X4: once the destructor has returned the pool is at rest for good: every
    worker has returned, nothing is queued, and the only step any schedule
    can still take is a Submit that is rejected, so neither the world of the
    callables nor any stored result nor the pool changes any more. *)
Theorem nothing_runs_after_destruction env numThreads p (w0 : World) s h
    sched s' h' :
  construct env numThreads = Constructed p →
  Reachable (init p w0) s h →
  dtor s = Destroyed →
  run sched s h = Some (s', h') →
  s' = s ∧
  h' = h ++ replicate (length sched) EvReject ∧
  Forall (λ a, is_submit a = true) sched ∧
  Forall (λ w, w = Exited) (m_Workers (pool s)) ∧
  m_Tasks (pool s) = [].
Proof.
  intros Hc Hr Hd. pose proof (Reachable_Inv _ _ _ _ _ _ Hc Hr) as I.
  pose proof (inv_join _ _ I) as Hj. rewrite Hd in Hj. simpl in Hj.
  destruct (Inv_drained _ _ I Hj) as (Hq & _); [by eapply Reachable_nonempty|].
  revert h Hr I. induction sched as [|a sched IH]; intros h Hr I; simpl.
  - intros [= <- <-]. by rewrite app_nil_r.
  - destruct (transition a s) as [[e s1]|] eqn:Ht; [|done].
    destruct (Destroyed_step _ _ _ _ _ _ _ _ _ Hc Hr Hd Ht) as (Ha & -> & ->).
    intros Hrun.
    destruct (IH (h ++ [EvReject])) as (-> & -> & Hall & _ & _); [| |done|].
    + by eapply reach_step.
    + by eapply Inv_step.
    + split; [done|]. split; [by rewrite <- app_assoc|].
      split; [by constructor|done].
Qed.

(** ** When the constructor completes *)

(** The loop of the constructor completes exactly when the creation of each
    of the [max numThreads 1] threads succeeds.  If a creation fails, the
    exception reaches the caller only when it is the first one that failed
    and no thread was started; otherwise the threads created so far, at
    least one, are all still waiting. *)
Lemma construct_outcomes env numThreads :
  ((∃ p : @ThreadPool World Val, construct env numThreads = Constructed p)
   ↔ ∀ i, (i < N.max numThreads 1)%N → env i = true) ∧
  (∀ e, construct (World:=World) (Val:=Val) env numThreads = Propagated e →
        e = system_error ∧ env 0%N = false) ∧
  (∀ ws, construct (World:=World) (Val:=Val) env numThreads = StdTerminate ws →
         ∃ k, ws = replicate (S k) Waiting ∧ (N.of_nat (S k) < N.max numThreads 1)%N ∧
              env (N.of_nat (S k)) = false ∧ env 0%N = true).
Proof.
  split; [split|split].
  - intros [p Hp] i Hi. destruct (env i) eqn:He; [done|].
    pose proof (construct_failure env numThreads (ex_intro _ i (conj Hi He))) as Hf.
    by rewrite Hp in Hf.
  - intros Hall. unfold construct. rewrite spawn_ok; [eauto|].
    intros j Hj. apply Hall. lia.
  - intros e He. unfold construct in He.
    destruct (spawn env _ 0%N []) as [ws [e'|]] eqn:Hs; [|done].
    apply spawn_Some in Hs as (k & Hk & -> & -> & Hek). simpl in He.
    destruct k as [|k]; simpl in He; [|done]. by simplify_eq.
  - intros ws Hws. unfold construct in Hws.
    destruct (spawn env _ 0%N []) as [ws' [e'|]] eqn:Hs; [|done].
    pose proof Hs as Hs'.
    apply spawn_Some in Hs as (k & Hk & -> & -> & Hek). simpl in Hws, Hek.
    destruct k as [|k]; simpl in Hws; [done|]. simplify_eq.
    exists k. split; [done|]. split; [lia|]. split; [done|].
    destruct (env 0%N) eqn:H0; [done|]. exfalso.
    destruct (N.to_nat (N.max numThreads 1)) as [|n]; [lia|].
    simpl in Hs'. rewrite H0 in Hs'. by simplify_eq.
Qed.

(** X5: the constructor completes exactly when the vector of workers can hold
    [max numThreads 1] elements, their storage can be allocated and the
    creation of every thread succeeds.  An exception reaches the caller only
    when no thread has been started: [std::length_error] or [std::bad_alloc]
    from [reserve], or the [std::system_error] of the first thread.  When a
    later creation fails the exception does not reach the caller: the threads
    created before it, at least one, are all still waiting, and nothing has
    stopped or joined them when the members are destroyed. *)
Theorem Construct_completes_iff mem env numThreads :
  ((∃ p : @ThreadPool World Val, Construct mem env numThreads = Constructed p)
   ↔ (N.max numThreads 1 ≤ max_size)%N ∧ mem (N.max numThreads 1) = true ∧
     ∀ i, (i < N.max numThreads 1)%N → env i = true) ∧
  (∀ e, Construct (World:=World) (Val:=Val) mem env numThreads = Propagated e →
        e = length_error ∧ (max_size < N.max numThreads 1)%N ∨
        e = bad_alloc ∧ (N.max numThreads 1 ≤ max_size)%N ∧
          mem (N.max numThreads 1) = false ∨
        e = system_error ∧ (N.max numThreads 1 ≤ max_size)%N ∧
          mem (N.max numThreads 1) = true ∧ env 0%N = false) ∧
  (∀ ws, Construct (World:=World) (Val:=Val) mem env numThreads = StdTerminate ws →
         (N.max numThreads 1 ≤ max_size)%N ∧ mem (N.max numThreads 1) = true ∧
         ∃ k, ws = replicate (S k) Waiting ∧
              (N.of_nat (S k) < N.max numThreads 1)%N ∧
              env (N.of_nat (S k)) = false ∧ env 0%N = true) ∧
  ((max_size < N.max numThreads 1)%N →
   Construct (World:=World) (Val:=Val) mem env numThreads = Propagated length_error).
Proof.
  destruct (construct_outcomes env numThreads) as (Hiff & Hprop & Hterm).
  split; [|split; [|split]].
  - split.
    + intros [p (Hle & Hm & Hc)%Construct_Constructed].
      split; [done|]. split; [done|]. apply Hiff. eauto.
    + intros (Hle & Hm & Henv). apply Hiff in Henv as [p Hp].
      exists p. by apply Construct_Constructed.
  - intros e. unfold Construct.
    destruct (reserve mem (N.max numThreads 1)) as [e'|] eqn:Hr.
    + simpl. intros [= <-].
      apply reserve_Some in Hr as [[-> Hlt]|(-> & Hle & Hm)]; [by left|].
      by right; left.
    + apply reserve_None in Hr as [Hle Hm]. intros He.
      apply Hprop in He as [-> H0]. by right; right.
  - intros ws. unfold Construct.
    destruct (reserve mem (N.max numThreads 1)) as [e'|] eqn:Hr; [done|].
    apply reserve_None in Hr as [Hle Hm]. intros Hws.
    split; [done|]. split; [done|]. by apply Hterm.
  - intros Hlt. unfold Construct, reserve.
    by destruct (N.ltb_spec max_size (N.max numThreads 1)); [|lia].
Qed.

(** ** The shared pool, continued *)

(** X6: the call of the accessor that finds the static uninitialised builds,
    when the threads can be created, a pool of [max hardware_concurrency 1]
    waiting workers with an empty queue and the stop flag clear, at an
    address that was free, and leaves every other pool of the process as it
    was. *)
Theorem MasterThreadPool_first_call env n (π : @Process World Val) :
  instance π = None →
  (∀ i, (i < N.max n 1)%N → env i = true) →
  ∃ a π', MasterThreadPool env n π = Done (Returned a) π' ∧
          instance π' = Some a ∧
          heap π !! a = None ∧
          (∀ b, b ≠ a → heap π' !! b = heap π !! b) ∧
          ∃ o, heap π' !! a = Some o ∧ owned o = false ∧
               ThreadCount (obj o) = N.max n 1 ∧
               m_Workers (obj o) = replicate (N.to_nat (N.max n 1)) Waiting ∧
               m_Tasks (obj o) = [] ∧ m_Stop (obj o) = false.
Proof.
  intros Hi Henv.
  assert (construct (World:=World) (Val:=Val) env n = Constructed
    {| m_Workers := replicate (N.to_nat (N.max n 1)) Waiting;
       m_Tasks := []; m_Stop := false |}) as Hc.
  { unfold construct. rewrite spawn_ok; [done|].
    intros j Hj. apply Henv. lia. }
  unfold MasterThreadPool, make_unique. rewrite Hi, Hc. simpl.
  eexists _, _. split; [done|]. simpl. split; [done|].
  split; [apply not_elem_of_dom, is_fresh|].
  split.
  { intros b Hb. by rewrite lookup_alter_ne, lookup_insert_ne. }
  eexists. rewrite lookup_alter_eq, lookup_insert_eq. simpl.
  split; [done|]. split; [done|]. unfold ThreadCount. simpl.
  rewrite length_replicate. split; [lia|done].
Qed.

(** X7: when the initialiser of the static throws, because the first thread
    could not be created, the call throws to its caller and leaves the
    process as it was, the static still uninitialised; the next call runs the
    initialiser again and, if the threads can then be created, returns the
    pool. *)
Theorem MasterThreadPool_initialisation_is_retried env n (π : @Process World Val) :
  instance π = None →
  env 0%N = false →
  MasterThreadPool env n π = Done (Thrown system_error) π ∧
  pstep (PMaster env n) π = Some π ∧
  ∀ env' n', (∀ i, (i < N.max n' 1)%N → env' i = true) →
    ∃ a π', MasterThreadPool env' n' π = Done (Returned a) π' ∧
            instance π' = Some a ∧
            ∃ o, heap π' !! a = Some o ∧ ThreadCount (obj o) = N.max n' 1.
Proof.
  intros Hi He.
  assert (construct (World:=World) (Val:=Val) env n = Propagated system_error) as Hc.
  { unfold construct. destruct (N.to_nat (N.max n 1)) as [|k] eqn:Hk; [lia|].
    simpl. by rewrite He. }
  assert (MasterThreadPool env n π = Done (Thrown system_error) π) as Hm.
  { unfold MasterThreadPool, make_unique. by rewrite Hi, Hc. }
  split; [done|]. split; [simpl; by rewrite Hm|].
  intros env' n' Henv.
  assert (construct (World:=World) (Val:=Val) env' n' = Constructed
    {| m_Workers := replicate (N.to_nat (N.max n' 1)) Waiting;
       m_Tasks := []; m_Stop := false |}) as Hc'.
  { unfold construct. rewrite spawn_ok; [done|].
    intros j Hj. apply Henv. lia. }
  unfold MasterThreadPool, make_unique. rewrite Hi, Hc'. simpl.
  eexists _, _. split; [done|]. simpl. split; [done|].
  eexists. rewrite lookup_alter_eq, lookup_insert_eq. simpl.
  split; [done|]. unfold ThreadCount. simpl. rewrite length_replicate. lia.
Qed.

(** ** A pool of one worker *)

Lemma sequential_snoc (fs : list (@Callable World Val)) f (w0 : World) :
  sequential (fs ++ [f]) w0 = (f (sequential fs w0)).1.
Proof. unfold sequential. by rewrite fold_left_app. Qed.

Lemma sequential_outcome_app (fs : list (@Callable World Val)) g (w0 : World) k :
  k < length fs →
  sequential_outcome (fs ++ [g]) w0 k = sequential_outcome fs w0 k.
Proof.
  intros Hk. unfold sequential_outcome.
  rewrite lookup_app_l by done. by rewrite take_app_le by lia.
Qed.

Lemma sequential_state_Submit (w0 : World) fs d s f :
  sequential_state w0 fs d s → m_Stop (pool s) = false →
  sequential_state w0 (fs ++ [f]) d (Submit f s).2.
Proof.
  intros (Hn & Hd & Hp & Hw & Hdone & Hpend) Hstop.
  unfold Submit. rewrite Hstop. unfold sequential_state, pending in *. simpl.
  rewrite length_app. simpl. split; [lia|]. split; [lia|]. split.
  { rewrite app_assoc, Hp, drop_app_le by done. rewrite imap_app. simpl.
    rewrite length_drop, Hn. do 3 f_equal. lia. }
  split; [by rewrite take_app_le|]. split.
  - intros k Hk. rewrite lookup_insert_ne by lia.
    rewrite sequential_outcome_app by lia. auto.
  - intros k Hk. destruct (decide (k = length fs)) as [->|Hne].
    + by rewrite Hn, lookup_insert_eq.
    + rewrite lookup_insert_ne by lia. apply Hpend. lia.
Qed.

Lemma sequential_state_step (w0 : World) fs d s h a e s' :
  Inv s h → length (m_Workers (pool s)) = 1 →
  sequential_state w0 fs d s →
  transition a s = Some (e, s') →
  ∃ d', sequential_state w0
          (fs ++ match a with
                 | ASubmit f => if m_Stop (pool s) then [] else [f]
                 | _ => []
                 end) d' s'.
Proof.
  intros I Hlen K Ht. destruct a as [f|i|]; simpl in Ht.
  - destruct (m_Stop (pool s)) eqn:Hstop.
    + unfold Submit in Ht. rewrite Hstop in Ht. simplify_eq.
      exists d. by rewrite app_nil_r.
    + exists d. pose proof (sequential_state_Submit w0 fs d s f K Hstop) as K'.
      unfold Submit in Ht, K'. rewrite Hstop in Ht, K'. by simplify_eq/=.
  - rewrite app_nil_r.
    destruct (m_Workers (pool s)) as [|w [|??]] eqn:Hws; simplify_eq/=.
    destruct i as [|i]; [|unfold WorkerThread in Ht; by rewrite Hws in Ht].
    destruct K as (Hn & Hd & Hp & Hw & Hdone & Hpend).
    unfold pending in Hp. rewrite Hws in Hp.
    destruct w as [|t|t| |].
    + unfold WorkerThread in Ht. rewrite Hws in Ht. simpl in Ht.
      exists d. unfold sequential_state, pending.
      destruct (m_Stop (pool s)), (m_Tasks (pool s)) as [|t rest] eqn:Hq;
        simplify_eq/=; rewrite ?Hws; simpl; rewrite ?Hq; done.
    + unfold WorkerThread in Ht. rewrite Hws in Ht. simplify_eq/=.
      exists d. unfold sequential_state, pending. simpl. by rewrite Hws.
    + assert (m_Workers (pool s) !! 0 = Some (Executing t)) as Hi by (by rewrite Hws).
      change (WorkerThread 0 s) with (transition (AWorker 0) s) in Ht.
      rewrite (Inv_finish _ _ _ _ I Hi) in Ht. simplify_eq/=.
      unfold held in Hp. simpl in Hp.
      destruct (drop d fs) as [|f rest] eqn:Hdrop; [done|].
      rewrite imap_cons in Hp. simplify_eq/=.
      assert (fs !! d = Some f) as Hf.
      { rewrite <- (Nat.add_0_r d), <- lookup_drop, Hdrop. done. }
      pose proof (lookup_lt_Some _ _ _ Hf) as Hlt.
      assert (drop (S d) fs = rest) as Hrest.
      { rewrite (drop_S _ _ _ Hf) in Hdrop. by simplify_eq. }
      exists (S d). unfold sequential_state, pending. simpl.
      rewrite Hws. simpl. rewrite Nat.add_0_r.
      split; [done|]. split; [lia|]. split.
      { rewrite Hrest. unfold held. simpl. rewrite H0.
        apply imap_ext. intros k x _. simpl. f_equal. lia. }
      split.
      { rewrite (take_S_r _ _ _ Hf), sequential_snoc. by rewrite Hw. }
      split.
      * intros k Hk. destruct (decide (k = d)) as [->|Hne].
        -- rewrite lookup_insert_eq. unfold sequential_outcome.
           unfold Callable, Outcome in *. rewrite Hf. simpl. by rewrite Hw.
        -- rewrite lookup_insert_ne by done. apply Hdone. lia.
      * intros k Hk. rewrite lookup_insert_ne by lia. apply Hpend. lia.
    + unfold WorkerThread in Ht. by rewrite Hws in Ht.
    + unfold WorkerThread in Ht. by rewrite Hws in Ht.
  - rewrite app_nil_r. exists d. unfold destructor in Ht.
    repeat (case_match; simplify_eq/=; try done).
Qed.

Lemma transition_stop s h a e s' :
  Inv s h → transition a s = Some (e, s') →
  m_Stop (pool s') =
    match a with ADestructor => true | _ => m_Stop (pool s) end.
Proof.
  intros I Ht. destruct a as [f|i|]; simpl in Ht.
  - unfold Submit in Ht. destruct (m_Stop (pool s)) eqn:Hs; by simplify_eq/=.
  - unfold WorkerThread, invoke in Ht.
    repeat (case_match; simplify_eq/=; try done).
  - unfold destructor in Ht. destruct (dtor s) as [|k|] eqn:Hd.
    + by simplify_eq/=.
    + assert (m_Stop (pool s) = true) as Hs by (apply (inv_stop _ _ I); by rewrite Hd).
      repeat (case_match; simplify_eq/=; try done).
    + done.
Qed.

Lemma sequential_state_run env numThreads p (w0 : World) sched s h fs d s' h' :
  construct env numThreads = Constructed p →
  length (m_Workers p) = 1 →
  Reachable (init p w0) s h →
  sequential_state w0 fs d s →
  run sched s h = Some (s', h') →
  ∃ d', sequential_state w0
          (fs ++ if m_Stop (pool s) then [] else submissions sched) d' s'.
Proof.
  intros Hc Hone. revert s h fs d.
  induction sched as [|a sched IH]; intros s h fs d Hr K; simpl.
  - intros [= <- <-]. exists d. destruct (m_Stop (pool s)); by rewrite app_nil_r.
  - destruct (transition a s) as [[e s1]|] eqn:Ht; [|done]. intros Hrun.
    pose proof (Reachable_Inv _ _ _ _ _ _ Hc Hr) as I.
    assert (length (m_Workers (pool s)) = 1) as Hlen
      by (by rewrite (Reachable_workers _ _ _ Hr)).
    destruct (sequential_state_step _ _ _ _ _ _ _ _ I Hlen K Ht) as [d1 K1].
    destruct (IH s1 (h ++ [e]) _ d1 (reach_step _ _ _ _ _ _ Hr Ht) K1 Hrun)
      as [d' K'].
    exists d'. rewrite (transition_stop _ _ _ _ _ I Ht) in K'.
    destruct a as [f|i|]; destruct (m_Stop (pool s)) eqn:Hs;
      rewrite <- ?app_assoc in K'; simpl in K'; rewrite ?app_nil_r in *; done.
Qed.

(** X9: a pool of one worker runs its tasks one after the other in the order
    of their submission.  When its destructor has returned, the world is what
    calling the submitted callables in sequence leaves, and the handle of the
    [k]-th submission holds what the [k]-th callable returned or threw in
    that sequence. *)
Theorem single_worker_is_sequential env numThreads p (w0 : World) sched s h :
  construct env numThreads = Constructed p →
  ThreadCount p = 1%N →
  run sched (init p w0) [] = Some (s, h) →
  dtor s = Destroyed →
  world s = sequential (submissions sched) w0 ∧
  ∀ k, k < length (submissions sched) →
       is_Some (sequential_outcome (submissions sched) w0 k) ∧
       shared s !! k = Some (sequential_outcome (submissions sched) w0 k).
Proof.
  intros Hc Hone Hrun Hd.
  assert (length (m_Workers p) = 1) as Hlen by (unfold ThreadCount in Hone; lia).
  assert (sequential_state w0 [] 0 (init p w0)) as K0.
  { unfold sequential_state, pending. simpl.
    destruct (m_Workers p) as [|w [|??]] eqn:Hws; simplify_eq/=.
    apply construct_Constructed in Hc. rewrite Hc in Hws. simpl in Hws.
    destruct (N.to_nat (N.max numThreads 1)) as [|[|?]]; simplify_eq/=.
    repeat split; try done; intros; lia. }
  destruct (sequential_state_run _ _ _ _ _ _ _ _ _ _ _ Hc Hlen (reach_init _) K0 Hrun)
    as [d K].
  assert (m_Stop (pool (init p w0)) = false) as Hs.
  { apply construct_Constructed in Hc. by rewrite Hc. }
  rewrite Hs in K. simpl in K.
  destruct K as (Hn & Hle & Hp & Hw & Hdone & Hpend).
  pose proof (run_Reachable _ _ _ _ _ _ (reach_init _) Hrun) as Hr.
  pose proof (Reachable_Inv _ _ _ _ _ _ Hc Hr) as I.
  pose proof (inv_join _ _ I) as Hj. rewrite Hd in Hj. simpl in Hj.
  destruct (Inv_drained _ _ I Hj) as (Hq & _); [by eapply Reachable_nonempty|].
  assert (held (m_Workers (pool s)) = []) as Hheld.
  { clear -Hj. unfold held. induction Hj as [|x l -> _ IH]; [done|]. by csimpl. }
  unfold pending in Hp. rewrite Hheld, Hq in Hp. simpl in Hp.
  assert (d = length (submissions sched)) as ->.
  { symmetry in Hp. apply (f_equal length) in Hp.
    rewrite length_imap, length_drop in Hp. simpl in Hp. lia. }
  rewrite take_ge in Hw by done. split; [done|].
  intros k Hk. split; [|by apply Hdone].
  unfold sequential_outcome.
  destruct (lookup_lt_is_Some_2 (submissions sched) k Hk) as [f Hf].
  unfold Callable, Outcome in *. rewrite Hf. simpl. eauto.
Qed.

(** ** Every worker busy at once *)

Lemma executing_all ws :
  Forall is_executing ws → length (executing ws) = length ws.
Proof.
  unfold executing. induction 1 as [|x l [t ->] _ IH]; [done|].
  csimpl. by rewrite IH.
Qed.

Lemma submits_run (fs : list (@Callable World Val)) s h :
  m_Stop (pool s) = false →
  ∃ s' h', run (ASubmit <$> fs) s h = Some (s', h') ∧
           m_Workers (pool s') = m_Workers (pool s) ∧
           length (m_Tasks (pool s')) = length (m_Tasks (pool s)) + length fs ∧
           m_Stop (pool s') = false ∧ world s' = world s ∧
           completed h' = completed h.
Proof.
  revert s h. induction fs as [|f fs IH]; intros s h Hstop.
  - exists s, h. simpl. repeat split; try done; lia.
  - destruct (IH (Submit f s).2 (h ++ [EvAccept (next_id s)]))
      as (s' & h' & Hrun & Hws & Hq & Hstop' & Hw & Hcmp).
    { unfold Submit. by rewrite Hstop. }
    exists s', h'. csimpl. unfold Submit in *. rewrite Hstop in *. simpl in *.
    split; [done|]. split; [done|]. rewrite length_app in Hq. simpl in Hq.
    split; [lia|]. split; [done|]. split; [done|].
    by rewrite Hcmp, completed_snoc, app_nil_r.
Qed.

Lemma workers_enter c s h E m :
  m_Workers (pool s) = E ++ replicate m Waiting →
  Forall is_executing E →
  c ≤ m → c ≤ length (m_Tasks (pool s)) →
  ∃ s' h' E',
    run (flat_map (λ i, [AWorker i; AWorker i]) (seq (length E) c)) s h
      = Some (s', h') ∧
    m_Workers (pool s') = E' ++ replicate (m - c) Waiting ∧
    Forall is_executing E' ∧ length E' = length E + c ∧
    m_Tasks (pool s') = drop c (m_Tasks (pool s)) ∧ world s' = world s ∧
    completed h' = completed h.
Proof.
  revert s h E m. induction c as [|c IH]; intros s h E m Hws HE Hm Hq.
  - exists s, h, E. simpl. rewrite Nat.sub_0_r, Nat.add_0_r. by rewrite drop_0.
  - destruct m as [|m]; [lia|].
    destruct (m_Tasks (pool s)) as [|t rest] eqn:Hqs; [simpl in Hq; lia|].
    assert (m_Workers (pool s) !! length E = Some Waiting) as Hi.
    { rewrite Hws, lookup_app_r, Nat.sub_diag by lia. done. }
    assert (<[length E := Executing t]> (m_Workers (pool s))
            = (E ++ [Executing t]) ++ replicate m Waiting) as Hins.
    { rewrite Hws, <- app_assoc. simpl.
      rewrite insert_app_r_alt, Nat.sub_diag by lia. done. }
    set (s1 := with_pool {| m_Workers := <[length E := Holding t]> (m_Workers (pool s));
                            m_Tasks := rest; m_Stop := m_Stop (pool s) |} s).
    assert (transition (AWorker (length E)) s = Some (EvDequeue (length E) (task_id t), s1))
      as Ht1.
    { simpl. unfold WorkerThread. rewrite Hi, Hqs.
      by destruct (m_Stop (pool s)). }
    set (s2 := with_pool (set_worker (length E) (Executing t) (pool s1)) s1).
    assert (transition (AWorker (length E)) s1 = Some (EvBegin (length E) (task_id t), s2))
      as Ht2.
    { simpl. unfold WorkerThread. simpl.
      rewrite list_lookup_insert_eq by (by eapply lookup_lt_Some). done. }
    destruct (IH s2 ((h ++ [EvDequeue (length E) (task_id t)])
                       ++ [EvBegin (length E) (task_id t)])
                 (E ++ [Executing t]) m)
      as (s' & h' & E' & Hrun & Hws' & HE' & Hlen & Hq' & Hw' & Hcmp).
    { simpl. by rewrite list_insert_insert_eq. }
    { apply Forall_app. split; [done|]. constructor; [by exists t|constructor]. }
    { lia. }
    { simpl in *. lia. }
    exists s', h', E'. rewrite length_app in Hrun, Hlen. simpl in Hrun, Hlen.
    rewrite Nat.add_1_r in Hrun.
    cbn [seq flat_map app run]. rewrite Ht1, Ht2.
    split; [done|]. split; [done|]. split; [done|]. split; [lia|].
    split; [done|]. split; [done|].
    by rewrite Hcmp, !completed_snoc, !app_nil_r.
Qed.

(** X10: the workers do run tasks in parallel.  On a pool that has as many
    tasks submitted as it has workers, the schedule in which each worker in
    turn takes a task and enters it can be run to its end, and then every
    worker is inside a task at the same time: the number of bodies in flight
    equals [ThreadCount], no body has finished and the queue is empty. *)
Theorem all_workers_busy_at_once env numThreads p (w0 : World)
    (fs : list (@Callable World Val)) :
  construct env numThreads = Constructed p →
  length fs = length (m_Workers p) →
  ∃ s h, run (saturate fs) (init p w0) [] = Some (s, h) ∧
         in_flight h = length fs ∧
         N.of_nat (in_flight h) = ThreadCount p ∧
         Forall is_executing (m_Workers (pool s)) ∧
         completed h = [] ∧
         m_Tasks (pool s) = [] ∧ world s = w0.
Proof.
  intros Hc Hlen. pose proof (construct_Constructed _ _ _ Hc) as Hp.
  destruct (submits_run fs (init p w0) [])
    as (s1 & h1 & Hrun1 & Hws1 & Hq1 & Hstop1 & Hw1 & Hcmp1).
  { by rewrite Hp. }
  assert (m_Workers (pool s1) = [] ++ replicate (length fs) Waiting) as Hws.
  { rewrite Hws1, Hlen. simpl. rewrite Hp. simpl. by rewrite length_replicate. }
  destruct (workers_enter (length fs) s1 h1 [] (length fs) Hws)
    as (s & h & E & Hrun2 & HwsE & HE & HlenE & Hq & Hw & Hcmp); [done|lia| |].
  { rewrite Hq1. lia. }
  exists s, h. unfold saturate. rewrite run_app, Hrun1. simpl in *.
  split; [done|].
  rewrite Nat.sub_diag, app_nil_r in HwsE.
  pose proof (run_Reachable _ _ _ _ _ _ (reach_init _) Hrun1) as Hr1.
  pose proof (run_Reachable _ _ _ _ _ _ Hr1 Hrun2) as Hr.
  pose proof (Reachable_Inv _ _ _ _ _ _ Hc Hr) as I.
  assert (length (executing (m_Workers (pool s))) = length fs) as Hex.
  { rewrite HwsE, executing_all by done. done. }
  assert (in_flight h = length fs) as Hfl.
  { unfold in_flight. rewrite (inv_exec _ _ I), length_app. lia. }
  split; [done|]. split; [unfold ThreadCount; rewrite Hfl; lia|].
  split; [by rewrite HwsE|]. split; [by rewrite Hcmp, Hcmp1|].
  split; [|congruence].
  rewrite Hq. apply drop_ge. rewrite Hq1, Hp. simpl. lia.
Qed.

(** ** Shutdown is final *)

Lemma shutdown_step s h a e s' :
  Inv s h → dtor s ≠ NotCalled → transition a s = Some (e, s') →
  dtor s' ≠ NotCalled ∧
  accepted (h ++ [e]) = accepted h ∧
  next_id s' = next_id s ∧
  length (m_Tasks (pool s')) ≤ length (m_Tasks (pool s)).
Proof.
  intros I Hd Ht.
  assert (m_Stop (pool s) = true) as Hstop by (by apply (inv_stop _ _ I)).
  rewrite accepted_snoc. destruct a as [f|i|]; simpl in Ht.
  - unfold Submit in Ht. rewrite Hstop in Ht. simplify_eq.
    by rewrite app_nil_r.
  - unfold WorkerThread, invoke in Ht.
    repeat (case_match; simplify_eq/=; try done);
      rewrite app_nil_r; repeat split; try done; lia.
  - unfold destructor in Ht.
    repeat (case_match; simplify_eq/=; try done);
      rewrite app_nil_r; repeat split; done.
Qed.

(** X11: shutdown cannot be undone.  Once the destructor has set the stop
    flag, in every continuation the flag stays set, no further task is ever
    accepted and no new shared state is allocated, and the queue only gets
    shorter. *)
Theorem shutdown_is_final env numThreads p (w0 : World) s h sched s' h' :
  construct env numThreads = Constructed p →
  Reachable (init p w0) s h →
  dtor s ≠ NotCalled →
  run sched s h = Some (s', h') →
  m_Stop (pool s') = true ∧
  dtor s' ≠ NotCalled ∧
  accepted h' = accepted h ∧
  next_id s' = next_id s ∧
  length (m_Tasks (pool s')) ≤ length (m_Tasks (pool s)).
Proof.
  intros Hc. revert s h. induction sched as [|a sched IH]; intros s h Hr Hd; simpl.
  - intros [= <- <-]. pose proof (Reachable_Inv _ _ _ _ _ _ Hc Hr) as I.
    split; [by apply (inv_stop _ _ I)|done].
  - destruct (transition a s) as [[e s1]|] eqn:Ht; [|done]. intros Hrun.
    pose proof (Reachable_Inv _ _ _ _ _ _ Hc Hr) as I.
    destruct (shutdown_step _ _ _ _ _ I Hd Ht) as (Hd1 & Ha1 & Hn1 & Hq1).
    destruct (IH s1 (h ++ [e]) (reach_step _ _ _ _ _ _ Hr Ht) Hd1 Hrun)
      as (Hs' & Hd' & Ha' & Hn' & Hq').
    split; [done|]. split; [done|]. split; [congruence|].
    split; [congruence|lia].
Qed.

(** * Which bodies were called, and in which world *)















End Invariants.
(** * Instances *)

Lemma after_Reachable n sched :
  is_Some (run sched (init (workers n) []) []) →
  Reachable (init (workers n) []) (after n sched).1 (after n sched).2.
Proof.
  intros [[s h] Hrun]. unfold after. rewrite Hrun. simpl.
  eapply run_Reachable; [apply reach_init | exact Hrun].
Qed.

(** Tasks pending when the single worker's pool is destroyed all run, in the
    order of their submission. *)
Example pending_tasks_run_in_order :
  world (after 1 pending_at_destruction).1 = [1; 2; 3; 4; 5] ∧
  dtor (after 1 pending_at_destruction).1 = Destroyed ∧
  begun (after 1 pending_at_destruction).2 = [0; 1; 2; 3; 4].
Proof. vm_compute. done. Qed.

(** A task that throws and one that returns 42: each handle gets its own
    outcome. *)
Example failure_then_answer :
  let sh := shared (after 2 full_run).1 in
  future_get {| fut_state := Some 0 |} sh
    = Got (Thrown (other_exception 7)) {| fut_state := None |} ∧
  future_get {| fut_state := Some 1 |} sh
    = Got (Returned 42) {| fut_state := None |} ∧
  (after 2 full_run).2 =
    [EvAccept 0; EvAccept 1; EvDequeue 0 0; EvDequeue 1 1; EvBegin 1 1;
     EvBegin 0 0; EvFinish 1 1; EvFinish 0 0; EvStop; EvExit 0; EvExit 1;
     EvJoin 0; EvJoin 1; EvDestroyed].
Proof. vm_compute. done. Qed.

(** A worker blocked in [wait] cannot move, and the destructor cannot join a
    worker that has not returned. *)
Example blocked_threads :
  run [AWorker 0] (init (workers 1) []) [] = None ∧
  run [ASubmit (say 1); AWorker 0; ADestructor; ADestructor]
      (init (workers 1) []) [] = None.
Proof. vm_compute. done. Qed.

Lemma ThreadCount_is_max_witness :
  ∃ p : @ThreadPool Log nat,
    Construct plentiful generous 0 = Constructed p ∧
    m_Workers p = replicate (N.to_nat (N.max 0 1)) Waiting ∧
    m_Tasks p = [] ∧ m_Stop p = false ∧
    ThreadCount p = N.max 0 1 ∧
    (0%N = 0%N → ThreadCount p = 1%N) ∧
    ∀ (w0 : Log) s h,
      Reachable (init p w0) s h → ThreadCount (pool s) = N.max 0 1.
Proof.
  apply (ThreadCount_is_max plentiful generous 0).
  - vm_compute. discriminate.
  - reflexivity.
  - intros i _. reflexivity.
Defined.

Lemma in_flight_bounded_witness :
  in_flight (after 2 overtaking).2
    = length (executing (m_Workers (pool (after 2 overtaking).1))) ∧
  (N.of_nat (in_flight (after 2 overtaking).2)
     ≤ ThreadCount (pool (after 2 overtaking).1))%N ∧
  ThreadCount (pool (after 2 overtaking).1) = ThreadCount (workers 2).
Proof.
  apply (in_flight_bounded generous 2 (workers 2) []).
  - reflexivity.
  - apply after_Reachable. vm_compute. eauto.
Defined.


Lemma Submit_after_shutdown_throws_witness :
  Submit (say 5) (after 1 [ADestructor]).1
  = (Thrown (runtime_error stopped_message), (after 1 [ADestructor]).1).
Proof.
  apply (Submit_after_shutdown_throws generous 1 (workers 1) [] _
           (after 1 [ADestructor]).2).
  - reflexivity.
  - apply after_Reachable. vm_compute. eauto.
  - vm_compute. discriminate.
Defined.

Lemma rejected_Submit_changes_nothing_witness :
  let s := (after 1 [ADestructor]).1 in
  runtime_error stopped_message = runtime_error stopped_message ∧
  m_Tasks (pool s) = m_Tasks (pool s) ∧
  m_Stop (pool s) = m_Stop (pool s) ∧
  m_Workers (pool s) = m_Workers (pool s) ∧
  world s = world s ∧
  shared s = shared s ∧
  transition (ASubmit (say 5)) s = Some (EvReject, s) ∧
  ∀ sched h, run sched s h = run sched s h.
Proof.
  intros s.
  apply (rejected_Submit_changes_nothing (say 5) s (runtime_error stopped_message) s).
  reflexivity.
Defined.

Lemma tasks_dequeued_in_submission_order_witness :
  let h := (after 1 [ASubmit (say 1); ASubmit (say 2); AWorker 0]).2 in
  let s := (after 1 [ASubmit (say 1); ASubmit (say 2); AWorker 0]).1 in
  accepted h = dequeued h ++ (task_id <$> m_Tasks (pool s)) ∧
  dequeues_in_submission_order h ∧
  (∀ f fu s', Submit f s = (Returned fu, s') →
     m_Tasks (pool s') = m_Tasks (pool s) ++ [mkTask (next_id s) f]) ∧
  (∀ i id s', transition (AWorker i) s = Some (EvDequeue i id, s') →
     ∃ task, task_id task = id ∧ m_Tasks (pool s) = task :: m_Tasks (pool s') ∧
             m_Workers (pool s') !! i = Some (Holding task)) ∧
  (ThreadCount (workers 1) = 1%N → begins_in_submission_order h).
Proof.
  intros h s.
  apply (tasks_dequeued_in_submission_order generous 1 (workers 1) []).
  - reflexivity.
  - apply after_Reachable. vm_compute. eauto.
Defined.

Lemma task_failure_is_contained_witness :
  let s := (after 1 failing).1 in
  let h := (after 1 failing).2 in
  no_escape h ∧
  (Terminated ∉ m_Workers (pool s)) ∧
  ∃ s', transition (AWorker 0) s = Some (EvFinish 0 0, s') ∧
        shared s' !! 0 = Some (Some (Thrown (other_exception 7))) ∧
        (∀ id, id ≠ 0 → shared s' !! id = shared s !! id) ∧
        m_Workers (pool s') = <[0 := Waiting]> (m_Workers (pool s)) ∧
        m_Tasks (pool s') = m_Tasks (pool s) ∧
        m_Stop (pool s') = m_Stop (pool s) ∧
        (Terminated ∉ m_Workers (pool s')).
Proof.
  intros s h.
  apply (task_failure_is_contained generous 1 (workers 1) [] s h 0
           (mkTask 0 (throws 7)) [] (other_exception 7)).
  - reflexivity.
  - apply after_Reachable. vm_compute. eauto.
  - reflexivity.
  - reflexivity.
Defined.

Lemma result_written_once_witness :
  let s := (after 1 answered).1 in
  let h := (after 1 answered).2 in
  let fu := {| fut_state := Some 0 |} in
  times 0 (completed h) ≤ 1 ∧
  (dtor s = Destroyed → times 0 (completed h) = 1) ∧
  (0 ∉ completed h →
     shared s !! 0 = Some None ∧
     future_get fu (shared s) = Blocked ∧
     future_wait fu (shared s) = None) ∧
  (0 ∈ completed h →
     ∃ o, shared s !! 0 = Some (Some o) ∧
          (∀ sched s' h', run sched s h = Some (s', h') →
                          shared s' !! 0 = Some (Some o)) ∧
          future_wait fu (shared s) = Some fu ∧
          future_get fu (shared s) = Got o {| fut_state := None |} ∧
          future_get {| fut_state := None |} (shared s) = NoState).
Proof.
  intros s h.
  apply (result_written_once generous 1 (workers 1) [] s h 0).
  - reflexivity.
  - apply after_Reachable. vm_compute. eauto.
  - vm_compute. apply list_elem_of_here.
Defined.

Lemma MasterThreadPool_one_instance_witness :
  let π2 : @Process Log nat :=
    {| heap := {[ 0 := {| obj := workers 4; owned := false |} ]};
       instance := Some 0 |} in
  let π3 : @Process Log nat :=
    {| heap := {[ 0 := {| obj := workers 4; owned := false |};
                  1 := {| obj := workers 2; owned := true |} ]};
       instance := Some 0 |} in
  MasterThreadPool generous 8 π3 = Done (Returned 0) π3 ∧
  (∃ o, heap π3 !! 0 = Some o ∧ owned o = false) ∧
  instance (@boot Log nat) = None ∧ heap (@boot Log nat) = ∅ ∧
  (instance (@boot Log nat) = None →
   heap (@boot Log nat) !! 0 = None ∧
   ∃ p, construct generous 4 = Constructed p ∧
        heap π2 !! 0 = Some {| obj := p; owned := false |}).
Proof.
  intros π2 π3.
  apply (MasterThreadPool_one_instance boot π2 π3 generous 4 generous 8 0).
  - apply preach_init.
  - vm_compute. reflexivity.
  - apply (preach_step _ (PNew generous 2) π2); [apply preach_init|].
    vm_compute. reflexivity.
Defined.

(** The five ways a call of the constructor can go. *)
Example constructor_outcomes :
  Construct (World:=Log) (Val:=nat) plentiful generous 3 = Constructed (workers 3) ∧
  Construct (World:=Log) (Val:=nat) plentiful generous SIZE_MAX
  = Propagated length_error ∧
  Construct (World:=Log) (Val:=nat) (λ _, false) generous 3 = Propagated bad_alloc ∧
  Construct (World:=Log) (Val:=nat) plentiful (exhausted_after 0) 3
  = Propagated system_error ∧
  Construct (World:=Log) (Val:=nat) plentiful (exhausted_after 2) 3
  = StdTerminate [Waiting; Waiting].
Proof. repeat split; reflexivity. Qed.

(** ** Behaviours that rule out the stronger readings *)

(** C3 as written: with two workers the second task can enter its body
    before the first:
    worker 0 dequeues the first task and is overtaken, between its dequeue
    and its call, by worker 1 with the second. *)
Lemma two_workers_begin_out_of_order :
  construct generous 2 = Constructed (workers 2) ∧
  run overtaking (init (workers 2) []) [] =
    Some ((after 2 overtaking).1,
          [EvAccept 0; EvAccept 1; EvDequeue 0 0; EvDequeue 1 1;
           EvBegin 1 1; EvBegin 0 0]) ∧
  accepted (after 2 overtaking).2 = [0; 1] ∧
  begun (after 2 overtaking).2 = [1; 0] ∧
  ¬ begins_in_submission_order (after 2 overtaking).2.
Proof.
  split; [reflexivity|]. split; [vm_compute; reflexivity|].
  split; [reflexivity|]. split; [reflexivity|].
  unfold begins_in_submission_order.
  replace (begun (after 2 overtaking).2) with [1; 0] by reflexivity.
  replace (accepted (after 2 overtaking).2) with [0; 1] by reflexivity.
  intros Hs. apply sublist_cons_r in Hs as [Hs|(l & Heq & _)]; [|done].
  apply sublist_cons_l in Hs as (k1 & k2 & Heq & Hs).
  destruct k1 as [|? [|??]]; simplify_eq/=.
  by apply sublist_nil_r in Hs.
Qed.

(** C5 as written: a handle whose task has completed with 42 delivers 42 to
    the first [get] and nothing to the second. *)
Lemma second_get_delivers_nothing :
  let sh := shared (after 1 answered).1 in
  let fu := {| fut_state := Some 0 |} in
  sh !! 0 = Some (Some (Returned 42)) ∧
  future_get fu sh = Got (Returned 42) {| fut_state := None |} ∧
  future_get {| fut_state := None |} sh = NoState ∧
  ¬ reads_are_idempotent fu sh.
Proof.
  intros sh fu.
  assert (sh !! 0 = Some (Some (Returned 42))) as H0 by (vm_compute; reflexivity).
  assert (future_get fu sh = Got (Returned 42) {| fut_state := None |}) as H1
    by (vm_compute; reflexivity).
  split; [done|]. split; [done|]. split; [done|].
  intros Hidem. destruct (Hidem _ _ H1) as [fu'' H2]. done.
Qed.

(** ** Instances of the further properties *)

Lemma Submit_before_shutdown_accepts_witness :
  let s := (after 2 [ASubmit (say 1)]).1 in
  let h := (after 2 [ASubmit (say 1)]).2 in
  ∃ s', Submit (say 2) s = (Returned {| fut_state := Some (next_id s) |}, s') ∧
        (next_id s ∉ accepted h) ∧
        future_get {| fut_state := Some (next_id s) |} (shared s') = Blocked ∧
        m_Tasks (pool s') = m_Tasks (pool s) ++ [mkTask (next_id s) (say 2)] ∧
        m_Workers (pool s') = m_Workers (pool s) ∧
        m_Stop (pool s') = false ∧
        world s' = world s ∧
        ∀ id, id ≠ next_id s → shared s' !! id = shared s !! id.
Proof.
  intros s h.
  apply (Submit_before_shutdown_accepts generous 2 (workers 2) [] s h (say 2)).
  - reflexivity.
  - apply after_Reachable. vm_compute. eauto.
  - reflexivity.
Defined.

Lemma workers_return_only_at_shutdown_witness :
  (let s := (after 2 []).1 in
   (Exited ∈ m_Workers (pool s) → dtor s ≠ NotCalled ∧ m_Tasks (pool s) = []) ∧
   (dtor s = NotCalled → m_Tasks (pool s) = [] →
    ∀ i, m_Workers (pool s) !! i = Some Waiting → transition (AWorker i) s = None) ∧
   (∀ i e s', transition (AWorker i) s = Some (e, s') →
              m_Workers (pool s') !! i = Some Exited →
              e = EvExit i ∧ m_Stop (pool s) = true ∧ m_Tasks (pool s) = [] ∧
              m_Workers (pool s) !! i = Some Waiting)) ∧
  (let s := (after 2 [ADestructor; AWorker 0]).1 in
   (Exited ∈ m_Workers (pool s) → dtor s ≠ NotCalled ∧ m_Tasks (pool s) = []) ∧
   (dtor s = NotCalled → m_Tasks (pool s) = [] →
    ∀ i, m_Workers (pool s) !! i = Some Waiting → transition (AWorker i) s = None) ∧
   (∀ i e s', transition (AWorker i) s = Some (e, s') →
              m_Workers (pool s') !! i = Some Exited →
              e = EvExit i ∧ m_Stop (pool s) = true ∧ m_Tasks (pool s) = [] ∧
              m_Workers (pool s) !! i = Some Waiting)).
Proof.
  split; intros s.
  - apply (workers_return_only_at_shutdown generous 2 (workers 2) [] s
             (after 2 []).2).
    + reflexivity.
    + apply after_Reachable. vm_compute. eauto.
  - apply (workers_return_only_at_shutdown generous 2 (workers 2) [] s
             (after 2 [ADestructor; AWorker 0]).2).
    + reflexivity.
    + apply after_Reachable. vm_compute. eauto.
Defined.

Lemma queued_task_can_be_taken_witness :
  let s := (after 2 [ASubmit (say 1); ASubmit (say 2); AWorker 0]).1 in
  m_Workers (pool s) ≠ [] ∧
  (∀ i w, m_Workers (pool s) !! i = Some w → w ≠ Exited ∧ w ≠ Terminated) ∧
  (∀ i, m_Workers (pool s) !! i = Some Waiting →
        ∃ task rest s', m_Tasks (pool s) = task :: rest ∧
          transition (AWorker i) s = Some (EvDequeue i (task_id task), s') ∧
          m_Tasks (pool s') = rest ∧
          m_Workers (pool s') = <[i := Holding task]> (m_Workers (pool s))) ∧
  (∀ i task, m_Workers (pool s) !! i = Some (Holding task) →
        ∃ s', transition (AWorker i) s = Some (EvBegin i (task_id task), s') ∧
              m_Tasks (pool s') = m_Tasks (pool s) ∧
              m_Workers (pool s') = <[i := Executing task]> (m_Workers (pool s))).
Proof.
  intros s.
  apply (queued_task_can_be_taken generous 2 (workers 2) [] s
           (after 2 [ASubmit (say 1); ASubmit (say 2); AWorker 0]).2).
  - reflexivity.
  - apply after_Reachable. vm_compute. eauto.
  - vm_compute. discriminate.
Defined.

Lemma nothing_runs_after_destruction_witness :
  let s := (after 1 pending_at_destruction).1 in
  let h := (after 1 pending_at_destruction).2 in
  s = s ∧
  h ++ [EvReject] = h ++ replicate (length [ASubmit (say 9)]) EvReject ∧
  Forall (λ a, is_submit a = true) [ASubmit (say 9)] ∧
  Forall (λ w, w = Exited) (m_Workers (pool s)) ∧
  m_Tasks (pool s) = [].
Proof.
  intros s h.
  apply (nothing_runs_after_destruction generous 1 (workers 1) [] s h
           [ASubmit (say 9)] s (h ++ [EvReject])).
  - reflexivity.
  - apply after_Reachable. vm_compute. eauto.
  - reflexivity.
  - vm_compute. reflexivity.
Defined.

Lemma MasterThreadPool_first_call_witness :
  ∃ a π', MasterThreadPool generous 0 (@boot Log nat) = Done (Returned a) π' ∧
          instance π' = Some a ∧
          heap (@boot Log nat) !! a = None ∧
          (∀ b, b ≠ a → heap π' !! b = heap (@boot Log nat) !! b) ∧
          ∃ o, heap π' !! a = Some o ∧ owned o = false ∧
               ThreadCount (obj o) = N.max 0 1 ∧
               m_Workers (obj o) = replicate (N.to_nat (N.max 0 1)) Waiting ∧
               m_Tasks (obj o) = [] ∧ m_Stop (obj o) = false.
Proof.
  apply (MasterThreadPool_first_call generous 0 boot).
  - reflexivity.
  - intros i _. reflexivity.
Defined.

Lemma MasterThreadPool_initialisation_is_retried_witness :
  MasterThreadPool (exhausted_after 0) 4 (@boot Log nat)
    = Done (Thrown system_error) boot ∧
  pstep (PMaster (exhausted_after 0) 4) (@boot Log nat) = Some boot ∧
  ∀ env' n', (∀ i, (i < N.max n' 1)%N → env' i = true) →
    ∃ a π', MasterThreadPool env' n' (@boot Log nat) = Done (Returned a) π' ∧
            instance π' = Some a ∧
            ∃ o, heap π' !! a = Some o ∧ ThreadCount (obj o) = N.max n' 1.
Proof.
  apply (MasterThreadPool_initialisation_is_retried (exhausted_after 0) 4 boot).
  - reflexivity.
  - reflexivity.
Defined.


Lemma single_worker_is_sequential_witness :
  let s := (after 1 pending_at_destruction).1 in
  world s = sequential (submissions pending_at_destruction) [] ∧
  ∀ k, k < length (submissions pending_at_destruction) →
       is_Some (sequential_outcome (submissions pending_at_destruction) [] k) ∧
       shared s !! k
         = Some (sequential_outcome (submissions pending_at_destruction) [] k).
Proof.
  intros s.
  apply (single_worker_is_sequential generous 1 (workers 1) []
           pending_at_destruction s (after 1 pending_at_destruction).2).
  - reflexivity.
  - reflexivity.
  - vm_compute. reflexivity.
  - reflexivity.
Defined.

Lemma all_workers_busy_at_once_witness :
  ∃ s h, run (saturate [say 1; say 2]) (init (workers 2) []) [] = Some (s, h) ∧
         in_flight h = length [say 1; say 2] ∧
         N.of_nat (in_flight h) = ThreadCount (workers 2) ∧
         Forall is_executing (m_Workers (pool s)) ∧
         completed h = [] ∧
         m_Tasks (pool s) = [] ∧ world s = [].
Proof.
  apply (all_workers_busy_at_once generous 2 (workers 2) [] [say 1; say 2]).
  - reflexivity.
  - reflexivity.
Defined.

Lemma shutdown_is_final_witness :
  let s := (after 1 [ASubmit (say 1); ADestructor]).1 in
  let h := (after 1 [ASubmit (say 1); ADestructor]).2 in
  let s' := (after 1 [ASubmit (say 1); ADestructor; ASubmit (say 2); AWorker 0]).1 in
  let h' := (after 1 [ASubmit (say 1); ADestructor; ASubmit (say 2); AWorker 0]).2 in
  m_Stop (pool s') = true ∧
  dtor s' ≠ NotCalled ∧
  accepted h' = accepted h ∧
  next_id s' = next_id s ∧
  length (m_Tasks (pool s')) ≤ length (m_Tasks (pool s)).
Proof.
  intros s h s' h'.
  apply (shutdown_is_final generous 1 (workers 1) [] s h
           [ASubmit (say 2); AWorker 0] s' h').
  - reflexivity.
  - apply after_Reachable. vm_compute. eauto.
  - vm_compute. discriminate.
  - vm_compute. reflexivity.
Defined.



(** C6 as written: asked for as many threads as a [size_t] can count, with
    memory and threads to spare, the constructor throws [std::length_error]
    out of [reserve] before it creates any thread, so that no pool exists
    whose [ThreadCount] could be [max numThreads 1]. *)
Lemma SIZE_MAX_threads_are_refused :
  plentiful (N.max SIZE_MAX 1) = true ∧
  (∀ i, (i < N.max SIZE_MAX 1)%N → generous i = true) ∧
  reserve plentiful (N.max SIZE_MAX 1) = Some length_error ∧
  Construct (World:=Log) (Val:=nat) plentiful generous SIZE_MAX
  = Propagated length_error ∧
  ¬ ∃ p : @ThreadPool Log nat,
      Construct plentiful generous SIZE_MAX = Constructed p ∧
      ThreadCount p = N.max SIZE_MAX 1.
Proof.
  split; [reflexivity|]. split; [done|]. split; [reflexivity|].
  assert (Construct (World:=Log) (Val:=nat) plentiful generous SIZE_MAX
          = Propagated length_error) as Hc by reflexivity.
  split; [exact Hc|]. intros (p & Hp & _). congruence.
Qed.
